(** * unifi-timelapse: a shallow embedding of [main.go]

    The program merges the video segments of one camera into a single
    sped-up file.  This development embeds the pure parts of [main.go]
    (filename sanitising, manifest escaping, timestamp extraction) as
    functions over Go strings, the directory walk as a traversal of a
    tree, and [main] itself as a computation over an explicit world with
    a trace of effects, Go's [defer] stack and [os.Exit].

    Go strings are byte sequences: [gostring] is [list ascii]. *)

From Stdlib Require Import Ascii String.
From Stdlib Require Import List ZArith Lia Bool Arith.
From Stdlib Require Import Permutation Sorted SpecFloat.
Import ListNotations.

Set Implicit Arguments.
Set Warnings "-register-all".

Definition gostring := list ascii.

(** A Go string literal. *)
Definition str (s : string) : gostring := list_ascii_of_string s.

Definition byte (n : nat) : ascii := ascii_of_nat n.

(** ** Package [strings] *)

Module strings.

(** [strings.HasPrefix]: [len(s) >= len(prefix) && s[:len(prefix)] == prefix]. *)
Fixpoint HasPrefix (s prefix : gostring) {struct prefix} : bool :=
  match prefix with
  | [] => true
  | p :: ps =>
      match s with
      | c :: cs => Ascii.eqb c p && HasPrefix cs ps
      | [] => false
      end
  end.

Fixpoint eqb (s t : gostring) : bool :=
  match s, t with
  | [], [] => true
  | c :: s', d :: t' => Ascii.eqb c d && eqb s' t'
  | _, _ => false
  end.

(** [strings.HasSuffix]: [len(s) >= len(suffix) && s[len(s)-len(suffix):] == suffix]. *)
Definition HasSuffix (s suffix : gostring) : bool :=
  (length suffix <=? length s)
  && eqb (skipn (length s - length suffix) s) suffix.

(** The ASCII part of [unicode.ToLower]. *)
Definition lowerByte (c : ascii) : ascii :=
  let n := nat_of_ascii c in
  if (65 <=? n) && (n <=? 90) then ascii_of_nat (n + 32) else c.

(** [strings.ToLower], on the bytes below 0x80.  A rune outside ASCII is
    left as it is here, where Go maps it to its lower case (or, for
    invalid UTF-8, to U+FFFD): no rune other than an ASCII letter lowers
    to one of the letters of [".mp4"], the only text the program
    compares a lowered string with. *)
Definition ToLower (s : gostring) : gostring := map lowerByte s.

(** [strings.ReplaceAll s old new] for a non-empty [old], as every call of
    the program has it: the non-overlapping occurrences of [old] are
    replaced from the left.  [skip] counts the bytes of an occurrence
    that has been replaced and is still to be passed over. *)
Fixpoint replaceFrom (old new : gostring) (skip : nat) (s : gostring) : gostring :=
  match s with
  | [] => []
  | c :: s' =>
      match skip with
      | S k => replaceFrom old new k s'
      | O =>
          if HasPrefix s old
          then new ++ replaceFrom old new (length old - 1) s'
          else c :: replaceFrom old new 0 s'
      end
  end.

Definition ReplaceAll (s old new : gostring) : gostring := replaceFrom old new 0 s.

(** The UTF-8 encodings of the runes for which [unicode.IsSpace] holds:
    tab, LF, VT, FF, CR, space, U+0085, U+00A0, U+1680, U+2000..U+200A,
    U+2028, U+2029, U+202F, U+205F, U+3000.  UTF-8 decoding at the start
    (or from the end) of a string yields one of these runes exactly when
    the string starts (or ends) with its encoding. *)
Definition spaceRunes : list gostring :=
  map (map byte)
    [ [9]; [10]; [11]; [12]; [13]; [32];
      [194; 133]; [194; 160];
      [225; 154; 128];
      [226; 128; 128]; [226; 128; 129]; [226; 128; 130]; [226; 128; 131];
      [226; 128; 132]; [226; 128; 133]; [226; 128; 134]; [226; 128; 135];
      [226; 128; 136]; [226; 128; 137]; [226; 128; 138];
      [226; 128; 168]; [226; 128; 169]; [226; 128; 175];
      [226; 129; 159];
      [227; 128; 128] ]%nat.

(** Width in bytes of a leading (trailing) white-space rune, 0 when the
    first (last) rune is not white space. *)
Definition leadingSpace (s : gostring) : nat :=
  match find (HasPrefix s) spaceRunes with
  | Some e => length e
  | None => 0
  end.

Definition trailingSpace (s : gostring) : nat :=
  match find (HasSuffix s) spaceRunes with
  | Some e => length e
  | None => 0
  end.

(** [strings.TrimLeftFunc(s, unicode.IsSpace)]; each step drops one rune,
    so [length s] steps are enough. *)
Fixpoint trimLeft (fuel : nat) (s : gostring) : gostring :=
  match fuel with
  | O => s
  | S fuel' =>
      match leadingSpace s with
      | O => s
      | k => trimLeft fuel' (skipn k s)
      end
  end.

(** [strings.TrimRightFunc(s, unicode.IsSpace)]. *)
Fixpoint trimRight (fuel : nat) (s : gostring) : gostring :=
  match fuel with
  | O => s
  | S fuel' =>
      match trailingSpace s with
      | O => s
      | k => trimRight fuel' (firstn (length s - k) s)
      end
  end.

(** [strings.TrimSpace]: leading white space is cut first, then trailing. *)
Definition TrimSpace (s : gostring) : gostring :=
  let l := trimLeft (length s) s in
  trimRight (length l) l.

End strings.

(** ** [sanitizeFilename] and the manifest line of [createInputsFile] *)

Definition underscore : gostring := [byte 95].

(** The characters of [invalid], in the order of the source:
    slash, backslash, colon, star, question mark, double quote, the two
    angle brackets, the bar and the space. *)
Definition invalidChars : list ascii :=
  map byte [47; 92; 58; 42; 63; 34; 60; 62; 124; 32]%nat.

Definition invalid : list gostring := map (fun c => [c]) invalidChars.

Definition sanitizeFilename (name : gostring) : gostring :=
  strings.TrimSpace
    (fold_left (fun result char => strings.ReplaceAll result char underscore)
       invalid name).

Definition backslash : gostring := [byte 92].
Definition slash : gostring := [byte 47].
Definition quote : gostring := [byte 39].
(** The four bytes ['\'']. *)
Definition escapedQuote : gostring := map byte [39; 92; 39; 39]%nat.

(** The two replacements of the loop body of [createInputsFile]. *)
Definition normalizePath (file : gostring) : gostring :=
  strings.ReplaceAll file backslash slash.

Definition escapePath (normalized : gostring) : gostring :=
  strings.ReplaceAll normalized quote escapedQuote.

(** The text [Fprintf(f, "file '%s'\n", escaped)] writes for [file]. *)
Definition manifestLine (file : gostring) : gostring :=
  str "file '" ++ escapePath (normalizePath file) ++ quote ++ [byte 10].

(** The path text between the quotes of a manifest line. *)
Definition writtenPath (file : gostring) : gostring :=
  escapePath (normalizePath file).

(** The inverse substitution of the specification: every ['\''] of the
    written text becomes one quote again. *)
Definition unescapePath (written : gostring) : gostring :=
  strings.ReplaceAll written escapedQuote quote.

(** The ASCII digits: what [isDigit] of package [time] and the class
    [\d] of package [regexp] accept. *)
Definition isDigitByte (c : ascii) : bool :=
  let n := nat_of_ascii c in (48 <=? n) && (n <=? 57).

(** ** Package [time] *)

Module time.

Local Open Scope Z_scope.

(** A [time.Time] as the comparisons of the program see it: the seconds
    since January 1, year 1, 00:00:00 UTC and the nanoseconds within the
    second.  Neither a parsed time nor a modification time carries a
    monotonic clock reading, and [Before] and [After] ignore the
    location. *)
Record Time := mkTime { sec : Z; nsec : Z }.

(** The zero value [time.Time{}]. *)
Definition zero : Time := mkTime 0 0.

Definition Before (t u : Time) : bool :=
  (sec t <? sec u) || ((sec t =? sec u) && (nsec t <? nsec u)).

Definition After (t u : Time) : bool :=
  (sec u <? sec t) || ((sec t =? sec u) && (nsec u <? nsec t)).

Definition isLeap (year : Z) : bool :=
  (Z.rem year 4 =? 0) && (negb (Z.rem year 100 =? 0) || (Z.rem year 400 =? 0)).

Definition daysBefore : list Z :=
  [0; 31; 59; 90; 120; 151; 181; 212; 243; 273; 304; 334; 365].

Definition daysIn (m year : Z) : Z :=
  if (m =? 2) && isLeap year then 29
  else nth (Z.to_nat m) daysBefore 0 - nth (Z.to_nat (m - 1)) daysBefore 0.

(** [norm(hi, lo, base)]. *)
Definition norm (hi lo base : Z) : Z * Z :=
  let '(hi, lo) :=
    if lo <? 0
    then let n := Z.quot (- lo - 1) base + 1 in (hi - n, lo + n * base)
    else (hi, lo) in
  if base <=? lo
  then let n := Z.quot lo base in (hi + n, lo - n * base)
  else (hi, lo).

(** Days from January 1 of year 1 to January 1 of [year]: what
    [daysSinceEpoch] gives once the absolute epoch is converted to the
    internal one. *)
Definition daysSinceYear1 (year : Z) : Z :=
  let y := year - 1 in
  365 * y + y / 4 - y / 100 + y / 400.

(** [time.Date(year, month, day, hour, min, sec, nsec, time.UTC)]. *)
Definition Date (year month day hour min sec nsec : Z) : Time :=
  let m := month - 1 in
  let '(year, m) := norm year m 12 in
  let month := m + 1 in
  let '(sec, nsec) := norm sec nsec 1000000000 in
  let '(min, sec) := norm min sec 60 in
  let '(hour, min) := norm hour min 60 in
  let '(day, hour) := norm day hour 24 in
  let d := daysSinceYear1 year
           + nth (Z.to_nat (month - 1)) daysBefore 0
           + (if isLeap year && (3 <=? month) then 1 else 0)
           + (day - 1) in
  mkTime (d * 86400 + hour * 3600 + min * 60 + sec) nsec.

Definition isDigit (s : gostring) (i : nat) : bool :=
  match nth_error s i with
  | Some c => isDigitByte c
  | None => false
  end.

Definition digitVal (c : ascii) : Z := Z.of_nat (nat_of_ascii c) - 48.

(** [getnum(s, fixed)]: one or two digits, two when [fixed]. *)
Definition getnum (s : gostring) (fixed : bool) : option (Z * gostring) :=
  if negb (isDigit s 0) then None
  else if negb (isDigit s 1) then
    if fixed then None
    else match s with
         | c :: s' => Some (digitVal c, s')
         | [] => None
         end
  else match s with
       | c :: d :: s' => Some (digitVal c * 10 + digitVal d, s')
       | _ => None
       end.

Fixpoint cutspace (s : gostring) : gostring :=
  match s with
  | c :: s' => if Ascii.eqb c (byte 32) then cutspace s' else s
  | [] => []
  end.

(** [skip(value, prefix)]: removes [prefix] from [value], a run of spaces
    of the one standing for a run of spaces of the other. *)
Fixpoint skipFuel (fuel : nat) (value prefix : gostring) : option gostring :=
  match fuel with
  | O => match prefix with [] => Some value | _ => None end
  | S fuel' =>
      match prefix with
      | [] => Some value
      | p :: prefix' =>
          if Ascii.eqb p (byte 32) then
            match value with
            | v :: _ =>
                if negb (Ascii.eqb v (byte 32)) then None
                else skipFuel fuel' (cutspace value) (cutspace prefix)
            | [] => skipFuel fuel' (cutspace value) (cutspace prefix)
            end
          else
            match value with
            | v :: value' =>
                if Ascii.eqb v p then skipFuel fuel' value' prefix' else None
            | [] => None
            end
      end
  end.

Definition skip (value prefix : gostring) : option gostring :=
  skipFuel (length prefix) value prefix.

(** The decimal value of a run of digits ([leadingInt] on digits only). *)
Definition digitsVal (s : gostring) : Z :=
  fold_left (fun acc c => acc * 10 + digitVal c) s 0.

Definition allDigits (s : gostring) : bool := forallb isDigitByte s.

(** The [stdLongYear] case of [Parse]: four bytes, all digits. *)
Definition longYear (value : gostring) : option (Z * gostring) :=
  if (length value <? 4)%nat || negb (isDigit value 0) then None
  else
    let p := firstn 4 value in
    if allDigits p then Some (digitsVal p, skipn 4 value) else None.

Definition commaOrPeriod (c : ascii) : bool :=
  Ascii.eqb c (byte 46) || Ascii.eqb c (byte 44).

Fixpoint digitRun (s : gostring) : nat :=
  match s with
  | c :: s' => if isDigitByte c then S (digitRun s') else O
  | [] => O
  end.

(** A fractional second in the input where the layout has none, after
    the seconds field: [parseNanoseconds] on the separator and the run of
    digits behind it, of which nine count. *)
Definition fraction (value : gostring) : Z * gostring :=
  match value with
  | c :: rest =>
      if commaOrPeriod c && isDigit value 1 then
        let n := digitRun rest in
        let used := firstn 9 (firstn n rest) in
        (digitsVal used * 10 ^ (9 - Z.of_nat (length used)), skipn n rest)
      else (0, value)
  | [] => (0, value)
  end.

Notation "' p <- c1 ;; c2" :=
  (match c1 with Some p => c2 | None => None end)
  (at level 61, p pattern, c1 at next level, right associativity).

(** [time.Parse(dateTimeFormat, value)] for the layout
    ["1-2-2006, 15:04:05"] of the program, chunk by chunk: month, day,
    four-digit year, hour, two-digit minute and second, each behind its
    literal prefix; a field out of range, text left over or a day the
    month does not have is an error ([None]). *)
Definition Parse (value : gostring) : option Time :=
  ' (month, value) <- getnum value false ;;
  if (month <=? 0) || (12 <? month) then None else
  ' value <- skip value (str "-") ;;
  ' (day, value) <- getnum value false ;;
  ' value <- skip value (str "-") ;;
  ' (year, value) <- longYear value ;;
  ' value <- skip value (str ", ") ;;
  ' (hour, value) <- getnum value false ;;
  if (hour <? 0) || (24 <=? hour) then None else
  ' value <- skip value (str ":") ;;
  ' (min, value) <- getnum value true ;;
  if (min <? 0) || (60 <=? min) then None else
  ' value <- skip value (str ":") ;;
  ' (sec, value) <- getnum value true ;;
  if (sec <? 0) || (60 <=? sec) then None else
  let '(nsec, value) := fraction value in
  match value with
  | _ :: _ => None
  | [] =>
      if (day <? 1) || (daysIn month year <? day) then None
      else Some (Date year month day hour min sec nsec)
  end.

End time.

(** ** Package [path/filepath], with [/] as the separator *)

Module filepath.

Definition isSlash (c : ascii) : bool := Ascii.eqb c (byte 47).

Fixpoint dropSlashes (s : gostring) : gostring :=
  match s with
  | c :: s' => if isSlash c then dropSlashes s' else s
  | [] => []
  end.

Fixpoint upToSlash (s : gostring) : gostring :=
  match s with
  | c :: s' => if isSlash c then [] else c :: upToSlash s'
  | [] => []
  end.

(** [filepath.Base]: the last element of the path, trailing slashes
    dropped; ["."] for the empty path and ["/"] for a path of slashes. *)
Definition Base (path : gostring) : gostring :=
  match path with
  | [] => str "."
  | _ =>
      match rev (upToSlash (dropSlashes (rev path))) with
      | [] => str "/"
      | e => e
      end
  end.

(** [filepath.Join(dir, name)] for a clean [dir] and a plain [name]. *)
Definition Join (dir name : gostring) : gostring := dir ++ str "/" ++ name.

End filepath.

(** ** The pattern [dateTimePattern] *)

Module regexp.

(** [\d] *)
Definition isDigit (c : ascii) : bool := isDigitByte c.

(** [\s] is [[\t\n\f\r ]]. *)
Definition isSpace (c : ascii) : bool :=
  let n := nat_of_ascii c in
  (n =? 9) || (n =? 10) || (n =? 12) || (n =? 13) || (n =? 32).

(** [[.:]] *)
Definition isSep (c : ascii) : bool :=
  Ascii.eqb c (byte 46) || Ascii.eqb c (byte 58).

(** A backtracking matcher gives its ways to match at the start of the
    input, the preferred one first, each with the text it captured and
    the rest of the input. *)
Definition matcher := gostring -> list (gostring * gostring).

Notation "'try' ( g , r ) <- e ;; k" :=
  (flat_map (fun cr => let g := fst cr in let r := snd cr in k) e)
  (at level 61, g name, r name, e at next level, right associativity).

(** One byte of a class. *)
Definition one (cls : ascii -> bool) : matcher :=
  fun s => match s with
           | c :: s' => if cls c then [([c], s')] else []
           | [] => []
           end.

Definition lit (c : ascii) : matcher := one (Ascii.eqb c).

(** [\d{n}] *)
Fixpoint digits (n : nat) : matcher :=
  match n with
  | O => fun s => [([], s)]
  | S n' => fun s =>
      try (c, r) <- one isDigit s ;;
      map (fun cr => (c ++ fst cr, snd cr)) (digits n' r)
  end.

(** [\d{1,2}], greedy: two digits are tried before one. *)
Definition digits12 : matcher := fun s => digits 2 s ++ digits 1 s.

(** [\s+], greedy: the longer run is tried first. *)
Fixpoint spaces (s : gostring) : list (gostring * gostring) :=
  match s with
  | c :: s' =>
      if isSpace c
      then map (fun cr => (c :: fst cr, snd cr)) (spaces s') ++ [([c], s')]
      else []
  | [] => []
  end.

(** The ways [dateTimePattern] matches at the start of [s]: the six
    captured groups and the rest of the input. *)
Definition matchHere (s : gostring) : list (list gostring * gostring) :=
  try (g1, s) <- digits12 s ;;
  try (_, s) <- lit (byte 45) s ;;
  try (g2, s) <- digits12 s ;;
  try (_, s) <- lit (byte 45) s ;;
  try (g3, s) <- digits 4 s ;;
  try (_, s) <- lit (byte 44) s ;;
  try (_, s) <- spaces s ;;
  try (g4, s) <- digits 2 s ;;
  try (_, s) <- one isSep s ;;
  try (g5, s) <- digits 2 s ;;
  try (_, s) <- one isSep s ;;
  try (g6, s) <- digits 2 s ;;
  [([g1; g2; g3; g4; g5; g6], s)].

(** [regexp.MustCompile(dateTimePattern).FindStringSubmatch(s)]: the
    leftmost match, as the text of the whole match followed by the six
    groups; the empty list stands for [nil]. *)
Fixpoint FindStringSubmatch (s : gostring) : list gostring :=
  match matchHere s with
  | (groups, rest) :: _ => firstn (length s - length rest) s :: groups
  | [] =>
      match s with
      | _ :: s' => FindStringSubmatch s'
      | [] => []
      end
  end.

End regexp.

(** ** [extractDateFromPath] *)

(** [fmt.Sprintf("%s-%s-%s, %s:%s:%s", m1, m2, m3, m4, m5, m6)]. *)
Definition dateTimeStr (m1 m2 m3 m4 m5 m6 : gostring) : gostring :=
  m1 ++ str "-" ++ m2 ++ str "-" ++ m3 ++ str ", "
     ++ m4 ++ str ":" ++ m5 ++ str ":" ++ m6.

(** The first half of [extractDateFromPath]: the time parsed from the
    first date and time of the file name, if there is one and it parses. *)
Definition parseEmbedded (filename : gostring) : option time.Time :=
  let matches := regexp.FindStringSubmatch filename in
  if length matches =? 7 then
    time.Parse
      (dateTimeStr (nth 1 matches []) (nth 2 matches []) (nth 3 matches [])
                   (nth 4 matches []) (nth 5 matches []) (nth 6 matches []))
  else None.

(** [Stat filePath] is the modification time [os.Stat] reports for the
    file, [None] when [os.Stat] returns an error. *)
Definition extractDateFromPath (Stat : gostring -> option time.Time)
    (filePath : gostring) : time.Time :=
  let filename := filepath.Base filePath in
  match parseEmbedded filename with
  | Some t => t
  | None =>
      match Stat filePath with
      | Some modTime => modTime
      | None => time.zero
      end
  end.

(** ** The filesystem under [videosDir] and [filepath.Walk] *)

(** An error value, by its message. *)
Definition error := gostring.

Inductive result (A : Type) : Type :=
| Ok (a : A)
| Err (e : error).

Arguments Ok {A} a.
Arguments Err {A} e.

(** What [os.Lstat] and the reading of directories find at a path: a
    regular file, a file that is neither regular nor a directory (a
    symbolic link, a device), a directory with its entries in the
    lexical order in which [Walk] visits them, a directory whose names
    cannot be read, or a path on which [os.Lstat] fails. *)
Inductive node : Type :=
| Regular
| Irregular
| Dir (entries : list (gostring * node))
| Unreadable (e : error)
| Broken (e : error).

(** The part of [os.FileInfo] the program looks at. *)
Record FileInfo := mkInfo { IsDir : bool; IsRegular : bool }.

Section Walk.

Variable S : Type.

(** The [filepath.WalkFunc], with the state it closes over. *)
Variable walkFn : gostring -> option FileInfo -> option error -> S -> S * option error.

(** [filepath.Walk(root, walkFn)] over the tree found at [root].  The
    sentinels [SkipDir] and [SkipAll] are left out: the operating system
    returns neither and the function of [findVideoFiles] returns only
    [nil], the error it was given, or that of [filepath.Abs]. *)
Fixpoint Walk (path : gostring) (n : node) (st : S) : S * option error :=
  match n with
  | Broken e => walkFn path None (Some e) st
  | Regular => walkFn path (Some (mkInfo false true)) None st
  | Irregular => walkFn path (Some (mkInfo false false)) None st
  | Unreadable e => walkFn path (Some (mkInfo true false)) (Some e) st
  | Dir entries =>
      let '(st1, err1) := walkFn path (Some (mkInfo true false)) None st in
      match err1 with
      | Some e => (st1, Some e)
      | None =>
          (fix each (es : list (gostring * node)) (st : S) : S * option error :=
             match es with
             | [] => (st, None)
             | (name, child) :: es' =>
                 let '(st', err) := Walk (filepath.Join path name) child st in
                 match err with
                 | Some e => (st', Some e)
                 | None => each es' st'
                 end
             end) entries st1
      end
  end.

End Walk.

Definition videosDir : gostring := str "videos".
Definition videoExt : gostring := str ".mp4".
Definition inputsFile : gostring := str "inputs.txt".

(** ** Numbers of type [float64] and their formatting *)

Module float64.

Local Open Scope Z_scope.

Definition prec : Z := 53.
Definition emax : Z := 1024.

(** The float64 nearest to [m * 2^e]. *)
Definition ofZ (m e : Z) : spec_float := binary_normalize prec emax m e false.

(** The float64 nearest to the decimal constant [num / den], for integers
    a float64 holds exactly: the correctly rounded quotient. *)
Definition ofRatio (num den : Z) : spec_float :=
  SFdiv prec emax (ofZ num 0) (ofZ den 0).

Definition div (x y : spec_float) : spec_float := SFdiv prec emax x y.

(** [x < y]: false as soon as one side is NaN. *)
Definition lt (x y : spec_float) : bool := SFltb x y.

(** The integer nearest to [num / den], a tie going to the even one. *)
Definition roundHalfEven (num den : Z) : Z :=
  let q := num / den in
  let r := num mod den in
  if (den <? 2 * r) || ((2 * r =? den) && Z.odd q) then q + 1 else q.

(** [m * 2^e * 10^p], rounded to an integer. *)
Definition scaled (m : positive) (e : Z) (p : nat) : Z :=
  if 0 <=? e
  then Zpos m * 2 ^ e * 10 ^ Z.of_nat p
  else roundHalfEven (Zpos m * 10 ^ Z.of_nat p) (2 ^ (- e)).

Definition digitChar (d : Z) : ascii := ascii_of_nat (48 + Z.to_nat d).

(** The decimal digits of [n], the last one first, put before [acc]. *)
Fixpoint digitsOf (fuel : nat) (n : Z) (acc : gostring) : gostring :=
  match fuel with
  | O => acc
  | S fuel' =>
      let acc' := digitChar (n mod 10) :: acc in
      if n <? 10 then acc' else digitsOf fuel' (n / 10) acc'
  end.

(** The verb [%d] on a number that is not negative; it has no more
    decimal digits than binary ones. *)
Definition decimal (n : Z) : gostring :=
  digitsOf (S (Z.to_nat (Z.log2 n))) n [].

(** The digits of [n / 10^p] with [p] decimals. *)
Definition fixedPoint (n : Z) (p : nat) : gostring :=
  match p with
  | O => decimal n
  | _ =>
      let frac := decimal (n mod 10 ^ Z.of_nat p) in
      decimal (n / 10 ^ Z.of_nat p) ++ str "."
        ++ repeat (byte 48) (p - length frac) ++ frac
  end.

(** The verb [%.pf] of package [fmt] on a float64: the exact value
    rounded to [p] decimals, half to even. *)
Definition format (p : nat) (f : spec_float) : gostring :=
  match f with
  | S754_nan => str "NaN"
  | S754_infinity s => if s then str "-Inf" else str "+Inf"
  | S754_zero s => (if s then str "-" else []) ++ fixedPoint 0 p
  | S754_finite s m e => (if s then str "-" else []) ++ fixedPoint (scaled m e p) p
  end.

End float64.

Definition minSpeedFactor : spec_float := float64.ofRatio 1 10.
Definition maxSpeedFactor : spec_float := float64.ofZ 1000 0.

(** ** The operating system the program runs against *)

Record OS := mkOS {
  (** what [os.Lstat] and the walk find at [videosDir] *)
  videos : node;
  (** [filepath.Abs] *)
  Abs : gostring -> result gostring;
  (** the modification time [os.Stat] reports, [None] on an error *)
  Stat : gostring -> option time.Time;
  (** the error of [os.Create(inputsFile)], if any *)
  createErr : option error;
  (** the error of the write of line [i] of the manifest, if any *)
  writeErr : nat -> option error;
  (** the error of [cmd.Run()] for the command and its arguments: a
      non-zero exit status or a failure to launch *)
  runErr : gostring -> list gostring -> option error;
  (** the error of [os.Remove(inputsFile)], if any *)
  removeErr : option error
}.

(** ** [findVideoFiles] *)

(** The function literal passed to [filepath.Walk]; [files] is the slice
    it appends to.  [Walk] passes no [info] only together with an error. *)
Definition visit (os : OS) (cameraName : gostring)
    (path : gostring) (info : option FileInfo) (err : option error)
    (files : list gostring) : list gostring * option error :=
  match err with
  | Some e => (files, Some e)
  | None =>
      match info with
      | None => (files, None)
      | Some info =>
          if negb (IsRegular info) then (files, None)
          else if negb (strings.HasSuffix (strings.ToLower path) videoExt)
          then (files, None)
          else
            let filename := filepath.Base path in
            if strings.HasPrefix filename cameraName then
              match Abs os path with
              | Err e => (files, Some e)
              | Ok absPath => (files ++ [absPath], None)
              end
            else (files, None)
      end
  end.

Definition findVideoFiles (os : OS) (cameraName : gostring)
    : list gostring * option error :=
  Walk (visit os cameraName) videosDir (videos os) [].

(** ** Effects: the trace, [defer] and [os.Exit] *)

Inductive event : Type :=
| EvStdout (text : gostring)
| EvStderr (text : gostring)
| EvUsage
| EvWalk (root : gostring)
| EvCreate (name : gostring) (ok : bool)
| EvWrite (name data : gostring) (ok : bool)
| EvClose (name : gostring)
| EvRemove (name : gostring) (ok : bool)
| EvExec (path : gostring) (args : list gostring).

(** A deferred call of the program. *)
Inductive deferred : Type :=
| DeferClose (name : gostring)
| DeferRemove (name : gostring).

(** The world of one run: the effects so far in order, the files the run
    has created and not removed, and the deferred calls of the function
    being executed, the last deferred first. *)
Record world := mkWorld {
  trace : list event;
  present : list gostring;
  defers : list deferred
}.

Definition initial : world := mkWorld [] [] [].

(** A statement either completes with a value or ends the process with
    [os.Exit(code)]. *)
Inductive outcome (A : Type) : Type :=
| Done (a : A)
| Exit (code : Z).

Arguments Done {A} a.
Arguments Exit {A} code.

Definition M (A : Type) : Type := world -> outcome A * world.

Definition ret {A} (a : A) : M A := fun w => (Done a, w).

Definition bind {A B} (c : M A) (k : A -> M B) : M B :=
  fun w =>
    match c w with
    | (Done a, w') => k a w'
    | (Exit code, w') => (Exit code, w')
    end.

Notation "x <- c1 ;; c2" := (bind c1 (fun x => c2))
  (at level 61, c1 at next level, right associativity).
Notation "c1 ;; c2" := (bind c1 (fun _ => c2))
  (at level 61, right associativity).

Definition emit (e : event) : M unit :=
  fun w => (Done tt, mkWorld (trace w ++ [e]) (present w) (defers w)).

Definition addFile (name : gostring) : M unit :=
  fun w => (Done tt, mkWorld (trace w) (name :: present w) (defers w)).

Definition delFile (name : gostring) : M unit :=
  fun w => (Done tt,
            mkWorld (trace w)
              (filter (fun f => negb (strings.eqb f name)) (present w))
              (defers w)).

(** [os.Exit(code)]: the process ends at once; deferred calls do not run. *)
Definition os_Exit {A} (code : Z) : M A := fun w => (Exit code, w).

(** The [defer] statement. *)
Definition defer (d : deferred) : M unit :=
  fun w => (Done tt, mkWorld (trace w) (present w) (d :: defers w)).

Definition when (b : bool) (c : M unit) : M unit := if b then c else ret tt.

Definition Printf (text : gostring) : M unit := emit (EvStdout text).
Definition Fprintf_Stderr (text : gostring) : M unit := emit (EvStderr text).

Definition newline : gostring := [byte 10].

(** [exitWithError], on the formatted message. *)
Definition exitWithError (message : gostring) : M unit :=
  Fprintf_Stderr (str "Error: " ++ message ++ newline) ;;
  os_Exit 1.

(** The flags after [flag.Parse()]. *)
Record Flags := mkFlags {
  cameraName : gostring;
  ffmpegPath : gostring;
  useGPU : bool;
  speed : spec_float
}.

Section Program.

(** [sort.Slice], by its contract only (see [SliceContract] below): the
    slice sorted by [less], with no promise on the order of elements
    that [less] does not separate. *)
Variable sort_Slice : (gostring -> gostring -> bool) -> list gostring -> list gostring.

Variable os : OS.

Definition runDeferred (d : deferred) : M unit :=
  match d with
  | DeferClose name => emit (EvClose name)
  | DeferRemove name =>
      match removeErr os with
      | Some err =>
          emit (EvRemove name false) ;;
          Fprintf_Stderr (str "Warning: failed to remove temporary file "
                            ++ name ++ str ": " ++ err ++ newline)
      | None => emit (EvRemove name true) ;; delFile name
      end
  end.

Fixpoint runAll (ds : list deferred) : M unit :=
  match ds with
  | [] => ret tt
  | d :: ds' => runDeferred d ;; runAll ds'
  end.

(** A function call: the body runs with a defer stack of its own; when it
    returns, its deferred calls run, the last deferred first.  When the
    body ends the process with [os.Exit], they do not. *)
Definition call {A} (body : M A) : M A :=
  fun w =>
    match body (mkWorld (trace w) (present w) []) with
    | (Done a, w1) =>
        match runAll (defers w1) (mkWorld (trace w1) (present w1) []) with
        | (Done _, w2) => (Done a, mkWorld (trace w2) (present w2) (defers w))
        | (Exit code, w2) => (Exit code, w2)
        end
    | (Exit code, w1) => (Exit code, w1)
    end.

(** The loop of [createInputsFile], from line [i] on. *)
Fixpoint writeLines (name : gostring) (i : nat) (files : list gostring)
    : M (option error) :=
  match files with
  | [] => ret None
  | file :: files' =>
      let normalized := normalizePath file in
      let escaped := escapePath normalized in
      let line := str "file '" ++ escaped ++ quote ++ newline in
      match writeErr os i with
      | Some err =>
          emit (EvWrite name line false) ;;
          ret (Some (str "writing to inputs file: " ++ err))
      | None =>
          emit (EvWrite name line true) ;;
          writeLines name (S i) files'
      end
  end.

Definition createInputsFile (files : list gostring) (inputsFile : gostring)
    : M (option error) :=
  call (
    match createErr os with
    | Some err => emit (EvCreate inputsFile false) ;; ret (Some err)
    | None =>
        emit (EvCreate inputsFile true) ;;
        addFile inputsFile ;;
        defer (DeferClose inputsFile) ;;
        writeLines inputsFile 0 files
    end).

(** The argument vector [runFFmpeg] builds. *)
Definition ffmpegArgs (inputsFile outputFile : gostring) (useGPU : bool)
    (speed : spec_float) : list gostring :=
  let speedFactor := float64.div (float64.ofZ 1 0) speed in
  let args :=
    [ str "-f"; str "concat";
      str "-safe"; str "0";
      str "-i"; inputsFile;
      str "-filter_complex";
      str "[0:v]setpts=" ++ float64.format 6 speedFactor ++ str "*PTS[v]";
      str "-map"; str "[v]" ] in
  let args :=
    if useGPU
    then args ++ [str "-c:v"; str "h264_nvenc"; str "-preset"; str "p4";
                  str "-cq"; str "23"]
    else args ++ [str "-c:v"; str "libx264"; str "-preset"; str "medium";
                  str "-crf"; str "23"] in
  args ++ [str "-pix_fmt"; str "yuv420p"; str "-y"; outputFile].

Definition runFFmpeg (ffmpegPath inputsFile outputFile : gostring)
    (useGPU : bool) (speed : spec_float) : M (option error) :=
  call (
    let args := ffmpegArgs inputsFile outputFile useGPU speed in
    (if useGPU
     then Printf (str "Running ffmpeg with GPU acceleration from: "
                    ++ ffmpegPath ++ newline)
     else Printf (str "Running ffmpeg with software encoding from: "
                    ++ ffmpegPath ++ newline)) ;;
    emit (EvExec ffmpegPath args) ;;
    ret (runErr os ffmpegPath args)).

(** The comparison [main] passes to [sort.Slice]. *)
Definition less (fileI fileJ : gostring) : bool :=
  let dateI := extractDateFromPath (Stat os) fileI in
  let dateJ := extractDateFromPath (Stat os) fileJ in
  time.Before dateI dateJ.

Definition count (n : nat) : gostring := float64.decimal (Z.of_nat n).

Definition main (flags : Flags) : M unit :=
  call (
    when (strings.eqb (cameraName flags) [])
      (Fprintf_Stderr (str "Error: -camera flag is required" ++ newline ++ newline) ;;
       emit EvUsage ;;
       os_Exit 1) ;;
    when (float64.lt (speed flags) minSpeedFactor
          || float64.lt maxSpeedFactor (speed flags))
      (exitWithError (str "speed factor must be between "
                        ++ float64.format 1 minSpeedFactor ++ str " and "
                        ++ float64.format 1 maxSpeedFactor)) ;;
    let outputFile :=
      sanitizeFilename (cameraName flags) ++ str "_merged_timelapse.mp4" in
    emit (EvWalk videosDir) ;;
    let '(files, err) := findVideoFiles os (cameraName flags) in
    when (match err with Some _ => true | None => false end)
      (exitWithError (str "finding video files: "
                        ++ match err with Some e => e | None => [] end)) ;;
    when (length files =? 0)
      (exitWithError (str "no video files found for camera: "
                        ++ cameraName flags)) ;;
    Printf (str "Found " ++ count (length files)
              ++ str " video file(s) for camera: "
              ++ cameraName flags ++ newline) ;;
    let files := sort_Slice less files in
    err <- createInputsFile files inputsFile ;;
    when (match err with Some _ => true | None => false end)
      (exitWithError (str "creating inputs file: "
                        ++ match err with Some e => e | None => [] end)) ;;
    defer (DeferRemove inputsFile) ;;
    Printf (str "Created " ++ inputsFile ++ str " with "
              ++ count (length files) ++ str " file(s)" ++ newline) ;;
    err <- runFFmpeg (ffmpegPath flags) inputsFile outputFile
             (useGPU flags) (speed flags) ;;
    when (match err with Some _ => true | None => false end)
      (exitWithError (str "running ffmpeg: "
                        ++ match err with Some e => e | None => [] end)) ;;
    Printf (str "Successfully created: " ++ outputFile ++ newline)).

(** One run of the process: its exit status and the world it leaves. *)
Definition run (flags : Flags) : Z * world :=
  match main flags initial with
  | (Done _, w) => (0%Z, w)
  | (Exit code, w) => (code, w)
  end.

End Program.

(** * The vocabulary of the properties *)

(** ** File names *)

(** What the loop of [sanitizeFilename] does to one byte. *)
Definition substChar (cs : list ascii) (x : ascii) : ascii :=
  if existsb (Ascii.eqb x) cs then byte 95 else x.

Definition okChar (x : ascii) : bool := negb (existsb (Ascii.eqb x) invalidChars).

Definition noBackslash (file : gostring) : bool :=
  forallb (fun c => negb (Ascii.eqb c (byte 92))) file.

(** ** Embedded timestamps *)

(** The fields [time.Parse] accepts for the layout of the program. *)
Definition validFields (mo d y h mi s : Z) : bool :=
  ((1 <=? mo) && (mo <=? 12) && (1 <=? d) && (d <=? time.daysIn mo y)
   && (h <? 24) && (mi <? 60) && (s <? 60))%Z.

(** Month in 1..12 and a day the month has in that year. *)
Definition calendarValid (mo d y : Z) : bool :=
  ((1 <=? mo) && (mo <=? 12) && (1 <=? d) && (d <=? time.daysIn mo y))%Z.

(** A group [\d{1,2}] and a group [\d{n}]. *)
Definition group12 (g : gostring) : Prop :=
  time.allDigits g = true /\ (length g = 1 \/ length g = 2).

Definition groupN (n : nat) (g : gostring) : Prop :=
  time.allDigits g = true /\ length g = n.

(** The texts [dateTimePattern] matches, by their groups, the run [ws] of
    white space and the two separators. *)
Definition patternText (g1 g2 g3 ws g4 : gostring) (c1 : ascii)
    (g5 : gostring) (c2 : ascii) (g6 : gostring) : gostring :=
  g1 ++ byte 45 :: g2 ++ byte 45 :: g3 ++ byte 44 :: ws
     ++ g4 ++ c1 :: g5 ++ c2 :: g6.

Definition wellFormed (g1 g2 g3 ws g4 : gostring) (c1 : ascii)
    (g5 : gostring) (c2 : ascii) (g6 : gostring) : Prop :=
  group12 g1 /\ group12 g2 /\ groupN 4 g3
  /\ ws <> [] /\ forallb regexp.isSpace ws = true
  /\ groupN 2 g4 /\ regexp.isSep c1 = true /\ groupN 2 g5
  /\ regexp.isSep c2 = true /\ groupN 2 g6.

(** Two bytes, and two names, that differ at most in which of the two
    separators stands where. *)
Definition sepEq (a b : ascii) : Prop :=
  a = b \/ (regexp.isSep a = true /\ regexp.isSep b = true).

Definition sepEquiv : gostring -> gostring -> Prop := Forall2 sepEq.

(** Two lists of matches of which the captures are related by [P] and the
    rests differ at most in separators. *)
Definition related (P : gostring -> gostring -> Prop)
    (l1 l2 : list (gostring * gostring)) : Prop :=
  Forall2 (fun x y => P (fst x) (fst y) /\ sepEquiv (snd x) (snd y)) l1 l2.

(** What [extractDateFromPath] returns when no time parses from the name. *)
Definition fallback (Stat : gostring -> option time.Time) (filePath : gostring)
    : time.Time :=
  match Stat filePath with
  | Some modTime => modTime
  | None => time.zero
  end.

(** The ordering key of a file. *)
Definition key (os : OS) (file : gostring) : time.Time :=
  extractDateFromPath (Stat os) file.

(** [t] is not later than [u]. *)
Definition notLater (t u : time.Time) : Prop :=
  (time.sec t < time.sec u
   \/ (time.sec t = time.sec u /\ time.nsec t <= time.nsec u))%Z.

(** ** The tree under [videosDir] *)

(** The paths of the regular files of a tree, in the order of the walk. *)
Fixpoint collect (path : gostring) (n : node) : list gostring :=
  match n with
  | Regular => [path]
  | Dir entries =>
      (fix each (es : list (gostring * node)) : list gostring :=
         match es with
         | [] => []
         | (name, child) :: es' => collect (filepath.Join path name) child ++ each es'
         end) entries
  | _ => []
  end.

(** The errors a walk of the tree can meet. *)
Fixpoint treeErrors (n : node) : list error :=
  match n with
  | Unreadable e => [e]
  | Broken e => [e]
  | Dir entries =>
      (fix each (es : list (gostring * node)) : list error :=
         match es with
         | [] => []
         | (_, child) :: es' => treeErrors child ++ each es'
         end) entries
  | _ => []
  end.

Definition collectEntries (path : gostring) (es : list (gostring * node))
    : list gostring :=
  flat_map (fun e => collect (filepath.Join path (fst e)) (snd e)) es.

Definition errorsEntries (es : list (gostring * node)) : list error :=
  flat_map (fun e => treeErrors (snd e)) es.

(** The loop over the names of a directory inside [Walk]. *)
Fixpoint walkEntries (S : Type)
    (fn : gostring -> option FileInfo -> option error -> S -> S * option error)
    (path : gostring) (es : list (gostring * node)) (st : S) : S * option error :=
  match es with
  | [] => (st, None)
  | (name, child) :: es' =>
      let '(st', err) := Walk fn (filepath.Join path name) child st in
      match err with
      | Some e => (st', Some e)
      | None => walkEntries fn path es' st'
      end
  end.

(** The two tests of [findVideoFiles] on the path of a regular file. *)
Definition wanted (cameraName path : gostring) : bool :=
  strings.HasSuffix (strings.ToLower path) videoExt
  && strings.HasPrefix (filepath.Base path) cameraName.

(** The same tests as the specification words them, on the name alone. *)
Definition wantedName (cameraName name : gostring) : bool :=
  strings.HasSuffix (strings.ToLower name) videoExt
  && strings.HasPrefix name cameraName.

(** What one regular file adds to the files found so far. *)
Definition step (os : OS) (cameraName : gostring)
    (acc : list gostring * option error) (p : gostring)
    : list gostring * option error :=
  match acc with
  | (fs, Some e) => (fs, Some e)
  | (fs, None) =>
      if wanted cameraName p
      then match Abs os p with
           | Ok q => (fs ++ [q], None)
           | Err e => (fs, Some e)
           end
      else (fs, None)
  end.

(** The name of a directory entry: not empty, no separator in it. *)
Definition wfName (name : gostring) : bool :=
  negb (strings.eqb name []) && forallb (fun c => negb (filepath.isSlash c)) name.

Fixpoint wfNames (n : node) : bool :=
  match n with
  | Dir entries =>
      (fix each (es : list (gostring * node)) : bool :=
         match es with
         | [] => true
         | (name, child) :: es' => wfName name && wfNames child && each es'
         end) entries
  | _ => true
  end.

(** ** Runs of [main] *)

Definition lineEvent (name file : gostring) : event :=
  EvWrite name (manifestLine file) true.

Definition outputFileOf (flags : Flags) : gostring :=
  sanitizeFilename (cameraName flags) ++ str "_merged_timelapse.mp4".

Definition argsOf (flags : Flags) : list gostring :=
  ffmpegArgs inputsFile (outputFileOf flags) (useGPU flags) (speed flags).

Definition runningLine (flags : Flags) : gostring :=
  if useGPU flags
  then str "Running ffmpeg with GPU acceleration from: " ++ ffmpegPath flags ++ newline
  else str "Running ffmpeg with software encoding from: " ++ ffmpegPath flags ++ newline.

(** The flags pass the two checks at the head of [main]. *)
Definition accepted (flags : Flags) : Prop :=
  strings.eqb (cameraName flags) [] = false
  /\ float64.lt (speed flags) minSpeedFactor = false
  /\ float64.lt maxSpeedFactor (speed flags) = false.

Definition foundLine (flags : Flags) (n : nat) : gostring :=
  str "Found " ++ count n ++ str " video file(s) for camera: "
      ++ cameraName flags ++ newline.

Definition createdLine (n : nat) : gostring :=
  str "Created " ++ inputsFile ++ str " with " ++ count n ++ str " file(s)" ++ newline.

(** The effects of a run up to and including the launch of ffmpeg. *)
Definition upToLaunch
    (sort_Slice : (gostring -> gostring -> bool) -> list gostring -> list gostring)
    (os : OS) (flags : Flags) (files : list gostring) : list event :=
  let sorted := sort_Slice (less os) files in
  [EvWalk videosDir; EvStdout (foundLine flags (length files));
   EvCreate inputsFile true]
  ++ map (lineEvent inputsFile) sorted
  ++ [EvClose inputsFile; EvStdout (createdLine (length sorted));
      EvStdout (runningLine flags);
      EvExec (ffmpegPath flags) (argsOf flags)].

(** A directory with the two files of the README, an operating system in
    which every call succeeds but, possibly, the run of ffmpeg, and the
    flags [-camera "G5 Flex"] with a speed. *)
Definition demoTree : node :=
  Dir [(str "G5 Flex 1-1-2026, 03.00.00 GMT+1.mp4", Regular);
       (str "G5 Flex 12-30-2025, 21.00.00 GMT+1.mp4", Regular)].

Definition demoOS (run : option error) : OS :=
  mkOS demoTree (fun p => Ok (str "/work/" ++ p)) (fun _ => None)
       None (fun _ => None) (fun _ _ => run) None.

Definition demoFlags (speed : spec_float) : Flags :=
  mkFlags (str "G5 Flex") (str "ffmpeg") true speed.

(** ** The contract of [sort.Slice] *)

(** [less] is a strict weak ordering, as package [sort] asks of it. *)
Definition strictWeak (A : Type) (less : A -> A -> bool) : Prop :=
  (forall a, less a a = false)
  /\ (forall a b c, less a b = true -> less b c = true -> less a c = true)
  /\ (forall a b c, less a c = true -> less a b = true \/ less b c = true).

(** No element is less than one before it. *)
Definition ordered (A : Type) (less : A -> A -> bool) (l : list A) : Prop :=
  StronglySorted (fun a b => less b a = false) l.

(** What the documentation of [sort.Slice] promises: the slice is
    rearranged, and sorted by [less]; the sort is not guaranteed to be
    stable. *)
Record SliceContract
    (sort : (gostring -> gostring -> bool) -> list gostring -> list gostring)
    : Prop := {
  slice_permutes : forall less l, Permutation l (sort less l);
  slice_orders : forall less l, strictWeak less -> ordered less (sort less l)
}.

Section InsertionSort.

Variable A : Type.

(** [pass x y]: the element [x] on its way left moves in front of [y]. *)
Variable pass : A -> A -> bool.

(** One element inserted into the part already sorted, which is kept
    with its last element first. *)
Fixpoint insertBack (x : A) (racc : list A) : list A :=
  match racc with
  | [] => [x]
  | y :: r => if pass x y then y :: insertBack x r else x :: racc
  end.

Definition insertionSortBy (l : list A) : list A :=
  rev (fold_left (fun racc x => insertBack x racc) l []).

End InsertionSort.

(** The insertion sort of package [sort], which [sort.Slice] runs on a
    short slice: an element moves left while it is less than the one
    before it. *)
Definition insertionSort (less : gostring -> gostring -> bool)
    : list gostring -> list gostring :=
  insertionSortBy (fun x y => less x y).

(** An insertion sort in which an element moves left until the one
    before it is less: it meets the contract of [sort.Slice] too. *)
Definition contrarySort (less : gostring -> gostring -> bool)
    : list gostring -> list gostring :=
  insertionSortBy (fun x y => negb (less y x)).

(** Stability as the specification states it: two files with the same
    key keep the order they were found in. *)
Definition keepsOrderOfEqualKeys (os : OS) (files out : list gostring) : Prop :=
  forall a b l1 l2 l3,
    files = l1 ++ a :: l2 ++ b :: l3 ->
    key os a = key os b -> a <> b ->
    exists m1 m2 m3, out = m1 ++ a :: m2 ++ b :: m3.

(** * Properties

    ** File names and manifest lines *)

Section StringFacts.

Import strings.

Lemma HasPrefix_nil s : HasPrefix s [] = true.
Proof. reflexivity. Qed.

Lemma replace_single s c new :
  ReplaceAll s [c] new = flat_map (fun x => if Ascii.eqb x c then new else [x]) s.
Proof.
  unfold ReplaceAll. induction s as [|x s IH]; simpl; auto.
  rewrite IH. destruct (Ascii.eqb x c); reflexivity.
Qed.

Lemma replace_single_char s c u :
  ReplaceAll s [c] [u] = map (fun x => if Ascii.eqb x c then u else x) s.
Proof.
  rewrite replace_single. induction s as [|x s IH]; simpl; auto.
  rewrite IH. now destruct (Ascii.eqb x c).
Qed.

Lemma replace_chars cs :
  existsb (Ascii.eqb (byte 95)) cs = false ->
  forall s,
  fold_left (fun result char => ReplaceAll result char underscore)
            (map (fun c => [c]) cs) s
  = map (substChar cs) s.
Proof.
  induction cs as [|c cs IH]; intros Hu s; simpl.
  - unfold substChar; simpl. now rewrite map_id.
  - simpl in Hu. apply orb_false_elim in Hu. destruct Hu as [Hc Hcs].
    rewrite IH by assumption. unfold underscore.
    rewrite replace_single_char, map_map.
    apply map_ext. intros x. unfold substChar. simpl.
    destruct (Ascii.eqb x c); simpl; auto. now rewrite Hcs.
Qed.

Lemma substChar_ok x : okChar (substChar invalidChars x) = true.
Proof.
  unfold substChar, okChar.
  destruct (existsb (Ascii.eqb x) invalidChars) eqn:E.
  - reflexivity.
  - now rewrite E.
Qed.

Lemma substChar_id x : okChar x = true -> substChar invalidChars x = x.
Proof.
  unfold substChar, okChar. now destruct (existsb (Ascii.eqb x) invalidChars).
Qed.

Lemma map_substChar_id s :
  forallb okChar s = true -> map (substChar invalidChars) s = s.
Proof.
  induction s as [|x s IH]; simpl; auto.
  intros H. apply andb_prop in H. destruct H as [Hx Hs].
  now rewrite substChar_id, IH.
Qed.

Lemma forallb_skipn (A : Type) (f : A -> bool) k l :
  forallb f l = true -> forallb f (skipn k l) = true.
Proof.
  revert l. induction k; intros [|x l]; simpl; auto.
  intros H. apply andb_prop in H. now apply IHk.
Qed.

Lemma forallb_firstn (A : Type) (f : A -> bool) k l :
  forallb f l = true -> forallb f (firstn k l) = true.
Proof.
  revert l. induction k; intros [|x l]; simpl; auto.
  intros H. apply andb_prop in H. destruct H as [-> H]. now apply IHk.
Qed.

Lemma trimLeft_S n s :
  trimLeft (S n) s =
  if leadingSpace s =? 0 then s else trimLeft n (skipn (leadingSpace s) s).
Proof. simpl. now destruct (leadingSpace s). Qed.

Lemma trimRight_S n s :
  trimRight (S n) s =
  if trailingSpace s =? 0 then s
  else trimRight n (firstn (length s - trailingSpace s) s).
Proof. simpl. now destruct (trailingSpace s). Qed.

Lemma trimLeft_forallb f n s :
  forallb f s = true -> forallb f (trimLeft n s) = true.
Proof.
  revert s. induction n; intros s H; [assumption|].
  rewrite trimLeft_S. destruct (leadingSpace s =? 0); auto.
  apply IHn. now apply forallb_skipn.
Qed.

Lemma trimRight_forallb f n s :
  forallb f s = true -> forallb f (trimRight n s) = true.
Proof.
  revert s. induction n; intros s H; [assumption|].
  rewrite trimRight_S. destruct (trailingSpace s =? 0); auto.
  apply IHn. now apply forallb_firstn.
Qed.

Lemma spaceRunes_nonempty e : In e spaceRunes -> 0 < length e.
Proof.
  unfold spaceRunes. intros H.
  repeat (destruct H as [<- | H]; [simpl; lia|]). destruct H.
Qed.

Lemma leadingSpace_0 s :
  leadingSpace s = 0 <-> (forall e, In e spaceRunes -> HasPrefix s e = false).
Proof.
  unfold leadingSpace. split.
  - destruct (find (HasPrefix s) spaceRunes) eqn:F.
    + apply find_some in F. destruct F as [Hin _].
      apply spaceRunes_nonempty in Hin. lia.
    + intros _ e He. now apply (find_none _ _ F).
  - intros H. destruct (find (HasPrefix s) spaceRunes) eqn:F; auto.
    apply find_some in F. destruct F as [Hin Hp]. rewrite (H _ Hin) in Hp. discriminate.
Qed.

Lemma trailingSpace_0 s :
  trailingSpace s = 0 <-> (forall e, In e spaceRunes -> HasSuffix s e = false).
Proof.
  unfold trailingSpace. split.
  - destruct (find (HasSuffix s) spaceRunes) eqn:F.
    + apply find_some in F. destruct F as [Hin _].
      apply spaceRunes_nonempty in Hin. lia.
    + intros _ e He. now apply (find_none _ _ F).
  - intros H. destruct (find (HasSuffix s) spaceRunes) eqn:F; auto.
    apply find_some in F. destruct F as [Hin Hp]. rewrite (H _ Hin) in Hp. discriminate.
Qed.

Lemma HasPrefix_length s e : HasPrefix s e = true -> length e <= length s.
Proof.
  revert s. induction e as [|p e IH]; intros [|c s]; simpl; try lia; try discriminate.
  intros H. apply andb_prop in H. destruct H as [_ H]. apply IH in H. lia.
Qed.

Lemma leadingSpace_le s : leadingSpace s <= length s.
Proof.
  unfold leadingSpace. destruct (find (HasPrefix s) spaceRunes) eqn:F; try lia.
  apply find_some in F. destruct F as [_ F]. now apply HasPrefix_length.
Qed.

Lemma trailingSpace_le s : trailingSpace s <= length s.
Proof.
  unfold trailingSpace. destruct (find (HasSuffix s) spaceRunes) eqn:F; try lia.
  apply find_some in F. destruct F as [_ F]. unfold HasSuffix in F.
  apply andb_prop in F. destruct F as [F _]. now apply Nat.leb_le in F.
Qed.

Lemma trimLeft_done n : forall s, length s <= n -> leadingSpace (trimLeft n s) = 0.
Proof.
  induction n; intros s Hn.
  - destruct s; [reflexivity | simpl in Hn; lia].
  - rewrite trimLeft_S. destruct (leadingSpace s =? 0) eqn:E.
    + now apply Nat.eqb_eq.
    + apply Nat.eqb_neq in E.
      apply IHn. rewrite length_skipn. pose proof (leadingSpace_le s). lia.
Qed.

Lemma trimRight_done n : forall s, length s <= n -> trailingSpace (trimRight n s) = 0.
Proof.
  induction n; intros s Hn.
  - destruct s; [reflexivity | simpl in Hn; lia].
  - rewrite trimRight_S. destruct (trailingSpace s =? 0) eqn:E.
    + now apply Nat.eqb_eq.
    + apply Nat.eqb_neq in E.
      apply IHn. rewrite length_firstn. pose proof (trailingSpace_le s). lia.
Qed.

Lemma trimLeft_fix n s : leadingSpace s = 0 -> trimLeft n s = s.
Proof. destruct n; simpl; auto. now intros ->. Qed.

Lemma trimRight_fix n s : trailingSpace s = 0 -> trimRight n s = s.
Proof. destruct n; simpl; auto. now intros ->. Qed.

Lemma HasPrefix_firstn k s e :
  HasPrefix (firstn k s) e = true -> HasPrefix s e = true.
Proof.
  revert k s. induction e as [|p e IH]; intros k s.
  - intros _. apply HasPrefix_nil.
  - destruct k, s; simpl; try discriminate.
    intros H. apply andb_prop in H. destruct H as [-> H]. simpl. eauto.
Qed.

Lemma leadingSpace_firstn k s : leadingSpace s = 0 -> leadingSpace (firstn k s) = 0.
Proof.
  rewrite !leadingSpace_0. intros H e He.
  destruct (HasPrefix (firstn k s) e) eqn:E; auto.
  apply HasPrefix_firstn in E. rewrite (H _ He) in E. discriminate.
Qed.

Lemma trimRight_leading n : forall s, leadingSpace s = 0 -> leadingSpace (trimRight n s) = 0.
Proof.
  induction n; intros s H; [assumption|].
  rewrite trimRight_S. destruct (trailingSpace s =? 0); auto.
  apply IHn. now apply leadingSpace_firstn.
Qed.

Lemma TrimSpace_idem s : TrimSpace (TrimSpace s) = TrimSpace s.
Proof.
  unfold TrimSpace at 1.
  assert (L : leadingSpace (TrimSpace s) = 0).
  { unfold TrimSpace. apply trimRight_leading. now apply trimLeft_done. }
  assert (R : trailingSpace (TrimSpace s) = 0).
  { unfold TrimSpace. now apply trimRight_done. }
  cbv zeta. rewrite (trimLeft_fix _ _ L). now apply trimRight_fix.
Qed.

Lemma TrimSpace_forallb f s : forallb f s = true -> forallb f (TrimSpace s) = true.
Proof.
  intros H. unfold TrimSpace. now apply trimRight_forallb, trimLeft_forallb.
Qed.

Lemma forallb_map_ok s : forallb okChar (map (substChar invalidChars) s) = true.
Proof.
  induction s; simpl; auto. now rewrite substChar_ok.
Qed.

Lemma sanitize_eq name :
  sanitizeFilename name = TrimSpace (map (substChar invalidChars) name).
Proof.
  unfold sanitizeFilename, invalid. now rewrite replace_chars.
Qed.

(** C8.  Sanitising is idempotent: sanitising a sanitised name gives it
    back.  The loop leaves none of the ten characters, the trimming cuts
    only white space at the two ends, and neither finds anything to do
    a second time. *)
Theorem sanitizeFilename_idempotent s :
  sanitizeFilename (sanitizeFilename s) = sanitizeFilename s.
Proof.
  rewrite !sanitize_eq.
  rewrite map_substChar_id.
  - apply TrimSpace_idem.
  - apply TrimSpace_forallb, forallb_map_ok.
Qed.

Lemma unescape_quote r :
  replaceFrom escapedQuote quote 0 (escapedQuote ++ r)
  = byte 39 :: replaceFrom escapedQuote quote 0 r.
Proof. reflexivity. Qed.

Lemma unescape_other x r :
  Ascii.eqb x (byte 39) = false ->
  replaceFrom escapedQuote quote 0 (x :: r)
  = x :: replaceFrom escapedQuote quote 0 r.
Proof.
  intros E. change (replaceFrom escapedQuote quote 0 (x :: r))
    with (if Ascii.eqb x (byte 39) && HasPrefix r (map byte [92; 39; 39])
          then quote ++ replaceFrom escapedQuote quote 3 r
          else x :: replaceFrom escapedQuote quote 0 r).
  now rewrite E.
Qed.

Lemma unescape_escape n : unescapePath (escapePath n) = n.
Proof.
  unfold unescapePath, escapePath. unfold quote at 1. rewrite replace_single.
  unfold ReplaceAll.
  induction n as [|x n IH]; [reflexivity|].
  cbn [flat_map]. destruct (Ascii.eqb x (byte 39)) eqn:E.
  - apply Ascii.eqb_eq in E. subst x.
    now rewrite unescape_quote, IH.
  - change ([x] ++ ?r) with (x :: r). now rewrite unescape_other, IH.
Qed.

Lemma normalizePath_id file : noBackslash file = true -> normalizePath file = file.
Proof.
  unfold normalizePath, backslash, slash. rewrite replace_single_char.
  induction file as [|x f IH]; simpl; auto.
  intros H. apply andb_prop in H. destruct H as [Hx Hf].
  rewrite IH by assumption. now destruct (Ascii.eqb x (byte 92)).
Qed.

(** C7, as amended.  Undoing the escape of the quotes on the path text
    of a manifest line gives the path with its backslashes turned into
    slashes, which is the path itself when it holds no backslash. *)
Theorem manifest_unescape file :
  unescapePath (writtenPath file) = normalizePath file
  /\ (noBackslash file = true -> unescapePath (writtenPath file) = file).
Proof.
  unfold writtenPath. rewrite unescape_escape. split; auto.
  apply normalizePath_id.
Qed.

Lemma manifest_unescape_witness :
  noBackslash (str "it's.mp4") = true
  /\ unescapePath (writtenPath (str "it's.mp4")) = str "it's.mp4".
Proof.
  split; [reflexivity|].
  apply (proj2 (manifest_unescape (str "it's.mp4"))). reflexivity.
Defined.

(** C7 as stated fails on the four bytes a, backslash, quote, b: the path
    holds a quote, and what comes back has a slash for the backslash. *)
Lemma manifest_unescape_backslash :
  In (byte 39) (map byte [97; 92; 39; 98])
  /\ unescapePath (writtenPath (map byte [97; 92; 39; 98])) <> map byte [97; 92; 39; 98].
Proof.
  split; [simpl; auto|]. vm_compute. discriminate.
Qed.

End StringFacts.

(** ** Timestamps in file names *)

Section TimestampFacts.

Import time.
Local Open Scope Z_scope.

Abbreviation dg := isDigitByte.

Lemma dg_range c : dg c = true -> (48 <= nat_of_ascii c <= 57)%nat.
Proof.
  unfold isDigitByte. intros H. apply andb_prop in H. destruct H as [H1 H2].
  apply Nat.leb_le in H1, H2. lia.
Qed.

Lemma dg_neq c n : dg c = true -> (n < 48 \/ 57 < n)%nat -> (n < 256)%nat ->
  Ascii.eqb c (byte n) = false.
Proof.
  intros H Hn Hb. apply Ascii.eqb_neq. intros ->.
  apply dg_range in H. unfold byte in H. rewrite nat_ascii_embedding in H; lia.
Qed.

Lemma digitVal_range c : dg c = true -> 0 <= digitVal c <= 9.
Proof. intros H. apply dg_range in H. unfold digitVal. lia. Qed.

Lemma getnum_two a b r fixed :
  dg a = true -> dg b = true ->
  getnum (a :: b :: r) fixed = Some (digitVal a * 10 + digitVal b, r).
Proof.
  intros Ha Hb. unfold getnum, isDigit. cbn [nth_error].
  now rewrite Ha, Hb.
Qed.

Lemma getnum_one a b r :
  dg a = true -> dg b = false ->
  getnum (a :: b :: r) false = Some (digitVal a, b :: r).
Proof.
  intros Ha Hb. unfold getnum, isDigit. cbn [nth_error].
  now rewrite Ha, Hb.
Qed.

Lemma skip_dash r : skip (byte 45 :: r) (str "-") = Some r.
Proof. reflexivity. Qed.

Lemma skip_colon r : skip (byte 58 :: r) (str ":") = Some r.
Proof. reflexivity. Qed.

Lemma skip_comma d r :
  dg d = true -> skip (byte 44 :: byte 32 :: d :: r) (str ", ") = Some (d :: r).
Proof.
  intros H. cbv [skip str list_ascii_of_string length skipFuel].
  change (Ascii.eqb (byte 44) (byte 44)) with true.
  change (Ascii.eqb "," (byte 32)) with false.
  change (Ascii.eqb " " (byte 32)) with true.
  change (Ascii.eqb (byte 32) (byte 32)) with true.
  cbn [negb cutspace]. rewrite (@dg_neq d 32) by (auto; lia). reflexivity.
Qed.

Lemma longYear_four a b c d r :
  dg a = true -> dg b = true -> dg c = true -> dg d = true ->
  longYear (a :: b :: c :: d :: r) = Some (digitsVal [a; b; c; d], r).
Proof.
  intros Ha Hb Hc Hd. unfold longYear, isDigit, allDigits.
  cbn [length Nat.ltb Nat.leb nth_error firstn skipn forallb orb negb].
  now rewrite Ha, Hb, Hc, Hd.
Qed.

Lemma allDigits_cons c g : allDigits (c :: g) = true -> dg c = true /\ allDigits g = true.
Proof. unfold allDigits. simpl. apply andb_prop. Qed.

Lemma digitsVal_nonneg_aux g : allDigits g = true -> forall acc, 0 <= acc -> 0 <= fold_left (fun acc c => acc * 10 + digitVal c) g acc.
Proof.
  induction g as [|c g IH]; simpl; intros H acc Hacc; auto.
  apply allDigits_cons in H. destruct H as [Hc Hg].
  apply IH; auto. pose proof (@digitVal_range c Hc). lia.
Qed.

Lemma digitsVal_nonneg g : allDigits g = true -> 0 <= digitsVal g.
Proof. intros H. apply digitsVal_nonneg_aux; auto. lia. Qed.

Lemma getnum_group12 g x r :
  group12 g -> dg x = false ->
  getnum (g ++ x :: r) false = Some (digitsVal g, x :: r).
Proof.
  intros [Hd Hl] Hx.
  destruct g as [|a [|b [|c g]]]; simpl in Hl; try lia.
  - apply allDigits_cons in Hd. destruct Hd as [Ha _].
    simpl. now rewrite getnum_one.
  - apply allDigits_cons in Hd. destruct Hd as [Ha Hd].
    apply allDigits_cons in Hd. destruct Hd as [Hb _].
    simpl. now rewrite getnum_two.
Qed.

Lemma getnum_group2 g r fixed :
  groupN 2 g -> getnum (g ++ r) fixed = Some (digitsVal g, r).
Proof.
  intros [Hd Hl].
  destruct g as [|a [|b [|c g]]]; simpl in Hl; try lia.
  apply allDigits_cons in Hd. destruct Hd as [Ha Hd].
  apply allDigits_cons in Hd. destruct Hd as [Hb _].
  simpl. now rewrite getnum_two.
Qed.

Lemma longYear_group g r :
  groupN 4 g -> longYear (g ++ r) = Some (digitsVal g, r).
Proof.
  intros [Hd Hl].
  destruct g as [|a [|b [|c [|d [|e g]]]]]; simpl in Hl; try lia.
  apply allDigits_cons in Hd. destruct Hd as [Ha Hd].
  apply allDigits_cons in Hd. destruct Hd as [Hb Hd].
  apply allDigits_cons in Hd. destruct Hd as [Hc Hd].
  apply allDigits_cons in Hd. destruct Hd as [Hd' _].
  simpl app. now rewrite longYear_four.
Qed.

Lemma skip_comma_group g r :
  groupN 2 g -> skip (byte 44 :: byte 32 :: g ++ r) (str ", ") = Some (g ++ r).
Proof.
  intros [Hd Hl]. destruct g as [|a g]; simpl in Hl; try lia.
  apply allDigits_cons in Hd. destruct Hd as [Ha _].
  simpl app. now apply skip_comma.
Qed.

Lemma Parse_dateTimeStr g1 g2 g3 g4 g5 g6 :
  group12 g1 -> group12 g2 -> groupN 4 g3 ->
  groupN 2 g4 -> groupN 2 g5 -> groupN 2 g6 ->
  Parse (dateTimeStr g1 g2 g3 g4 g5 g6) =
  if validFields (digitsVal g1) (digitsVal g2) (digitsVal g3)
                 (digitsVal g4) (digitsVal g5) (digitsVal g6)
  then Some (Date (digitsVal g3) (digitsVal g1) (digitsVal g2)
                  (digitsVal g4) (digitsVal g5) (digitsVal g6) 0)
  else None.
Proof.
  intros H1 H2 H3 H4 H5 H6.
  pose proof (@digitsVal_nonneg g1 (proj1 H1)) as P1.
  pose proof (@digitsVal_nonneg g2 (proj1 H2)) as P2.
  pose proof (@digitsVal_nonneg g4 (proj1 H4)) as P4.
  pose proof (@digitsVal_nonneg g5 (proj1 H5)) as P5.
  pose proof (@digitsVal_nonneg g6 (proj1 H6)) as P6.
  unfold dateTimeStr.
  change (str "-") with [byte 45]. change (str ":") with [byte 58].
  change (str ", ") with [byte 44; byte 32]. cbn [app].
  unfold Parse.
  rewrite (@getnum_group12 g1 _ _ H1) by reflexivity. cbv beta iota.
  rewrite skip_dash.
  rewrite (@getnum_group12 g2 _ _ H2) by reflexivity. cbv beta iota.
  rewrite skip_dash.
  rewrite (@longYear_group g3 _ H3). cbv beta iota.
  rewrite (@skip_comma_group g4 _ H4).
  rewrite (@getnum_group2 g4 _ _ H4). cbv beta iota.
  rewrite skip_colon.
  rewrite (@getnum_group2 g5 _ _ H5). cbv beta iota.
  rewrite skip_colon.
  rewrite <- (app_nil_r g6) at 1.
  rewrite (@getnum_group2 g6 _ _ H6). cbv beta iota.
  cbn [fraction]. unfold validFields.
  repeat (match goal with
          | |- context [?a <=? ?b] => destruct (Z.leb_spec a b)
          | |- context [?a <? ?b] => destruct (Z.ltb_spec a b)
          end; cbn [orb andb negb]; try reflexivity; try lia).
Qed.

Lemma daysSince_nonneg y : 1 <= y -> 0 <= daysSinceYear1 y.
Proof. unfold daysSinceYear1. intros H. cbv zeta. Z.div_mod_to_equations. lia. Qed.

Lemma norm_id hi lo base : 0 <= lo < base -> norm hi lo base = (hi, lo).
Proof.
  intros H. unfold norm.
  destruct (lo <? 0) eqn:E1; [apply Z.ltb_lt in E1; lia|].
  destruct (base <=? lo) eqn:E2; [apply Z.leb_le in E2; lia|]. reflexivity.
Qed.

Lemma Date_valid y mo d h mi s :
  1 <= mo <= 12 -> 0 <= h < 24 -> 0 <= mi < 60 -> 0 <= s < 60 ->
  Date y mo d h mi s 0 =
  mkTime ((daysSinceYear1 y + nth (Z.to_nat (mo - 1)) daysBefore 0
           + (if isLeap y && (3 <=? mo) then 1 else 0) + (d - 1)) * 86400
          + h * 3600 + mi * 60 + s) 0.
Proof.
  intros Hmo Hh Hmi Hs. unfold Date.
  rewrite (@norm_id y (mo - 1) 12) by lia.
  rewrite (@norm_id s (0) 1000000000) by lia.
  rewrite (@norm_id mi (s) 60) by lia.
  rewrite (@norm_id h (mi) 60) by lia.
  rewrite (@norm_id d (h) 24) by lia.
  replace (mo - 1 + 1) with mo by lia. reflexivity.
Qed.

Import regexp.

Lemma one_sound cls s g r :
  In (g, r) (one cls s) -> exists c, g = [c] /\ cls c = true /\ s = c :: r.
Proof.
  destruct s as [|c s]; simpl; [tauto|].
  destruct (cls c) eqn:E; simpl; [|tauto].
  intros [H|[]]. inversion H; subst. eauto.
Qed.

Lemma digits_sound n : forall s g r,
  In (g, r) (digits n s) -> groupN n g /\ s = g ++ r.
Proof.
  induction n; intros s g r; simpl.
  - intros [H|[]]. inversion H; subst. now split; [split|].
  - intros H. apply in_flat_map in H. destruct H as [[c r'] [Hin H]].
    cbn [fst snd] in H. apply in_map_iff in H. destruct H as [[g' r''] [Heq H]].
    cbn [fst snd] in Heq. inversion Heq; subst.
    apply one_sound in Hin. destruct Hin as [x [-> [Hx ->]]].
    apply IHn in H. destruct H as [[Hd Hl] ->].
    split; [split|]; simpl; auto.
    + unfold time.allDigits in *. simpl. unfold isDigit in Hx. now rewrite Hx.
Qed.

Lemma digits12_sound s g r :
  In (g, r) (digits12 s) -> group12 g /\ s = g ++ r.
Proof.
  unfold digits12. intros H. apply in_app_or in H.
  destruct H as [H|H]; apply digits_sound in H; destruct H as [[Hd Hl] ->];
    (split; [split|]; auto).
Qed.

Lemma spaces_sound s : forall g r,
  In (g, r) (spaces s) -> g <> [] /\ forallb isSpace g = true /\ s = g ++ r.
Proof.
  induction s as [|c s IH]; intros g r; simpl; [tauto|].
  destruct (isSpace c) eqn:E; simpl; [|tauto].
  intros H. apply in_app_or in H. destruct H as [H|[H|[]]].
  - apply in_map_iff in H. destruct H as [[g' r'] [Heq H]].
    cbn [fst snd] in Heq. inversion Heq; subst.
    apply IH in H. destruct H as [_ [Hs ->]].
    split; [discriminate|]. split; simpl; auto. now rewrite E.
  - inversion H; subst. split; [discriminate|]. split; simpl; auto. now rewrite E.
Qed.

Ltac enter H :=
  apply in_flat_map in H;
  let c := fresh "g" in let r := fresh "r" in let Hin := fresh "Hin" in
  destruct H as [[c r] [Hin H]]; cbn [fst snd] in H.

Lemma matchHere_sound s gs rest :
  In (gs, rest) (matchHere s) ->
  exists g1 g2 g3 ws g4 c1 g5 c2 g6,
    gs = [g1; g2; g3; g4; g5; g6]
    /\ wellFormed g1 g2 g3 ws g4 c1 g5 c2 g6
    /\ s = patternText g1 g2 g3 ws g4 c1 g5 c2 g6 ++ rest.
Proof.
  unfold matchHere. intros H.
  do 12 enter H. destruct H as [H|[]]. inversion H; subst; clear H.
  apply digits12_sound in Hin. destruct Hin as [W1 ->].
  apply one_sound in Hin0. destruct Hin0 as [x1 [-> [E1 ->]]].
  apply digits12_sound in Hin1. destruct Hin1 as [W2 ->].
  apply one_sound in Hin2. destruct Hin2 as [x2 [-> [E2 ->]]].
  apply digits_sound in Hin3. destruct Hin3 as [W3 ->].
  apply one_sound in Hin4. destruct Hin4 as [x3 [-> [E3 ->]]].
  apply spaces_sound in Hin5. destruct Hin5 as [Wn [Ws ->]].
  apply digits_sound in Hin6. destruct Hin6 as [W4 ->].
  apply one_sound in Hin7. destruct Hin7 as [c1 [-> [S1 ->]]].
  apply digits_sound in Hin8. destruct Hin8 as [W5 ->].
  apply one_sound in Hin9. destruct Hin9 as [c2 [-> [S2 ->]]].
  apply digits_sound in Hin10. destruct Hin10 as [W6 ->].
  apply Ascii.eqb_eq in E1, E2, E3. subst x1 x2 x3.
  exists g, g1, g3, g5, g6, c1, g8, c2, g10.
  split; [reflexivity|]. split.
  - unfold wellFormed. tauto.
  - unfold patternText. repeat (rewrite <- ?app_assoc; simpl). reflexivity.
Qed.

Lemma FindStringSubmatch_sound s :
  FindStringSubmatch s = []
  \/ exists pre rest g1 g2 g3 ws g4 c1 g5 c2 g6,
       wellFormed g1 g2 g3 ws g4 c1 g5 c2 g6
       /\ s = pre ++ patternText g1 g2 g3 ws g4 c1 g5 c2 g6 ++ rest
       /\ FindStringSubmatch s
          = [patternText g1 g2 g3 ws g4 c1 g5 c2 g6; g1; g2; g3; g4; g5; g6].
Proof.
  induction s as [|c s IH].
  - left. reflexivity.
  - cbn [FindStringSubmatch].
    destruct (matchHere (c :: s)) as [|[gs rest] l] eqn:E.
    + destruct IH as [IH|IH]; [left; exact IH|right].
      destruct IH as (pre & rest & g1 & g2 & g3 & ws & g4 & c1 & g5 & c2 & g6 & W & -> & F).
      exists (c :: pre), rest, g1, g2, g3, ws, g4, c1, g5, c2, g6.
      split; [exact W|]. split; [reflexivity|exact F].
    + right.
      assert (Hin : In (gs, rest) (matchHere (c :: s))) by (rewrite E; now left).
      apply matchHere_sound in Hin.
      destruct Hin as (g1 & g2 & g3 & ws & g4 & c1 & g5 & c2 & g6 & -> & W & Hs).
      exists [], rest, g1, g2, g3, ws, g4, c1, g5, c2, g6.
      split; [exact W|]. split; [exact Hs|].
      rewrite Hs. rewrite length_app.
      replace (length (patternText g1 g2 g3 ws g4 c1 g5 c2 g6) + length rest - length rest)%nat
        with (length (patternText g1 g2 g3 ws g4 c1 g5 c2 g6)) by lia.
      now rewrite firstn_app, Nat.sub_diag, firstn_all, firstn_O, app_nil_r.
Qed.

Lemma one_complete (cls : ascii -> bool) c r : cls c = true -> In ([c], r) (one cls (c :: r)).
Proof. intros H. simpl. rewrite H. now left. Qed.

Lemma digits_complete n : forall g r, groupN n g -> In (g, r) (digits n (g ++ r)).
Proof.
  induction n; intros g r [Hd Hl].
  - destruct g; [now left|discriminate].
  - destruct g as [|c g]; [discriminate|].
    apply allDigits_cons in Hd. destruct Hd as [Hc Hd].
    cbn [digits]. apply in_flat_map. exists ([c], g ++ r). split.
    + simpl. unfold isDigit. rewrite Hc. now left.
    + cbn [fst snd]. apply in_map_iff. exists (g, r). split; auto.
      apply IHn. split; auto.
Qed.

Lemma digits12_complete g r : group12 g -> In (g, r) (digits12 (g ++ r)).
Proof.
  intros [Hd [Hl|Hl]]; unfold digits12; apply in_or_app.
  - right. apply digits_complete. now split.
  - left. apply digits_complete. now split.
Qed.

Lemma spaces_complete ws : forall r,
  ws <> [] -> forallb isSpace ws = true -> In (ws, r) (spaces (ws ++ r)).
Proof.
  induction ws as [|c ws IH]; intros r Hn Hs; [congruence|].
  simpl in Hs. apply andb_prop in Hs. destruct Hs as [Hc Hs].
  simpl. rewrite Hc. apply in_or_app.
  destruct ws as [|d ws].
  - right. now left.
  - left. apply in_map_iff. exists (d :: ws, r). split; auto.
    apply IH; [discriminate|assumption].
Qed.

Lemma matchHere_complete g1 g2 g3 ws g4 c1 g5 c2 g6 rest :
  wellFormed g1 g2 g3 ws g4 c1 g5 c2 g6 ->
  In ([g1; g2; g3; g4; g5; g6], rest)
     (matchHere (patternText g1 g2 g3 ws g4 c1 g5 c2 g6 ++ rest)).
Proof.
  intros (W1 & W2 & W3 & Wn & Ws & W4 & S1 & W5 & S2 & W6).
  unfold matchHere, patternText.
  repeat (rewrite <- ?app_assoc; rewrite <- ?app_comm_cons).
  eapply in_flat_map. eexists (g1, _). split; [now apply digits12_complete|]. cbn [fst snd].
  eapply in_flat_map. eexists ([byte 45], _). split; [apply one_complete; reflexivity|]. cbn [fst snd].
  eapply in_flat_map. eexists (g2, _). split; [now apply digits12_complete|]. cbn [fst snd].
  eapply in_flat_map. eexists ([byte 45], _). split; [apply one_complete; reflexivity|]. cbn [fst snd].
  eapply in_flat_map. eexists (g3, _). split; [now apply digits_complete|]. cbn [fst snd].
  eapply in_flat_map. eexists ([byte 44], _). split; [apply one_complete; reflexivity|]. cbn [fst snd].
  eapply in_flat_map. eexists (ws, _). split; [now apply spaces_complete|]. cbn [fst snd].
  eapply in_flat_map. eexists (g4, _). split; [now apply digits_complete|]. cbn [fst snd].
  eapply in_flat_map. eexists ([c1], _). split; [now apply one_complete|]. cbn [fst snd].
  eapply in_flat_map. eexists (g5, _). split; [now apply digits_complete|]. cbn [fst snd].
  eapply in_flat_map. eexists ([c2], _). split; [now apply one_complete|]. cbn [fst snd].
  eapply in_flat_map. eexists (g6, _). split; [now apply digits_complete|]. cbn [fst snd].
  now left.
Qed.

Lemma FindStringSubmatch_complete pre g1 g2 g3 ws g4 c1 g5 c2 g6 rest :
  wellFormed g1 g2 g3 ws g4 c1 g5 c2 g6 ->
  length (FindStringSubmatch
            (pre ++ patternText g1 g2 g3 ws g4 c1 g5 c2 g6 ++ rest)) = 7%nat.
Proof.
  intros W.
  destruct (FindStringSubmatch_sound (pre ++ patternText g1 g2 g3 ws g4 c1 g5 c2 g6 ++ rest))
    as [E|E].
  - exfalso. revert E. induction pre as [|c pre IH].
    + cbn [app].
      pose proof (@matchHere_complete g1 g2 g3 ws g4 c1 g5 c2 g6 rest W) as Hin.
      destruct (patternText g1 g2 g3 ws g4 c1 g5 c2 g6 ++ rest) as [|x t] eqn:Et.
      * destruct Hin.
      * cbn [FindStringSubmatch].
        destruct (matchHere (x :: t)) as [|[gs r] l]; [destruct Hin|discriminate].
    + cbn [app FindStringSubmatch].
      destruct (matchHere (c :: pre ++ patternText g1 g2 g3 ws g4 c1 g5 c2 g6 ++ rest))
        as [|[gs r] l]; [exact IH|discriminate].
  - destruct E as (? & ? & ? & ? & ? & ? & ? & ? & ? & ? & ? & _ & _ & ->). reflexivity.
Qed.

Local Close Scope Z_scope.

Lemma flat_map_Forall2 (A B C D : Type) (R : A -> B -> Prop) (R' : C -> D -> Prop)
    (f : A -> list C) (g : B -> list D) l1 l2 :
  Forall2 R l1 l2 ->
  (forall x y, R x y -> Forall2 R' (f x) (g y)) ->
  Forall2 R' (flat_map f l1) (flat_map g l2).
Proof.
  intros H Hfg. induction H; simpl; [constructor|].
  apply Forall2_app; auto.
Qed.

Lemma one_related_strict (cls : ascii -> bool) s1 s2 :
  (forall c, isSep c = true -> cls c = false) ->
  sepEquiv s1 s2 -> related eq (one cls s1) (one cls s2).
Proof.
  intros Hc H. destruct H as [|a b s1 s2 Hab H]; simpl; [constructor|].
  destruct Hab as [<-|[Ha Hb]].
  - destruct (cls a); constructor; [split; auto|constructor].
  - rewrite (Hc _ Ha), (Hc _ Hb). constructor.
Qed.

Lemma one_related_sep s1 s2 :
  sepEquiv s1 s2 -> related (fun _ _ => True) (one isSep s1) (one isSep s2).
Proof.
  intros H. destruct H as [|a b s1 s2 Hab H]; simpl; [constructor|].
  destruct Hab as [<-|[Ha Hb]].
  - destruct (isSep a); constructor; [split; auto|constructor].
  - rewrite Ha, Hb. constructor; [split; auto|constructor].
Qed.

Lemma isSep_cases c : isSep c = true -> c = byte 46 \/ c = byte 58.
Proof.
  unfold isSep. intros H. apply orb_prop in H.
  destruct H as [H|H]; apply Ascii.eqb_eq in H; auto.
Qed.

Lemma sep_not_digit c : isSep c = true -> isDigit c = false.
Proof. intros H. apply isSep_cases in H. destruct H as [->| ->]; reflexivity. Qed.

Lemma sep_not_space c : isSep c = true -> isSpace c = false.
Proof. intros H. apply isSep_cases in H. destruct H as [->| ->]; reflexivity. Qed.

Lemma sep_not_lit x c :
  isSep x = false -> isSep c = true -> Ascii.eqb x c = false.
Proof.
  intros Hx Hc. apply Ascii.eqb_neq. intros ->. congruence.
Qed.

Lemma digits_related n : forall s1 s2,
  sepEquiv s1 s2 -> related eq (digits n s1) (digits n s2).
Proof.
  induction n; intros s1 s2 H; simpl.
  - constructor; [split; auto|constructor].
  - eapply flat_map_Forall2.
    + apply one_related_strict; [apply sep_not_digit|exact H].
    + intros [c1 r1] [c2 r2] [Hc Hr]. cbn [fst snd] in *. subst c2.
      specialize (IHn _ _ Hr).
      induction IHn as [|[g1 t1] [g2 t2] l1 l2 [Hg Ht] _ IH]; simpl; constructor; auto.
      cbn [fst snd] in *. subst. split; auto.
Qed.

Lemma digits12_related s1 s2 :
  sepEquiv s1 s2 -> related eq (digits12 s1) (digits12 s2).
Proof.
  intros H. unfold digits12. apply Forall2_app; now apply digits_related.
Qed.

Lemma spaces_related s1 s2 :
  sepEquiv s1 s2 -> related eq (spaces s1) (spaces s2).
Proof.
  intros H. induction H as [|a b s1 s2 Hab H IH]; simpl; [constructor|].
  destruct Hab as [<-|[Ha Hb]].
  - destruct (isSpace a); [|constructor].
    apply Forall2_app.
    + clear H. induction IH as [|[g1 t1] [g2 t2] l1 l2 [Hg Ht] _ IH']; simpl; constructor; auto.
      cbn [fst snd] in *. subst. split; auto.
    + constructor; [split; auto|constructor].
  - rewrite (sep_not_space _ Ha), (sep_not_space _ Hb). constructor.
Qed.

Lemma matchHere_related s1 s2 :
  sepEquiv s1 s2 ->
  Forall2 (fun x y => fst x = fst y /\ sepEquiv (snd x) (snd y))
          (matchHere s1) (matchHere s2).
Proof.
  intros H. unfold matchHere.
  eapply flat_map_Forall2; [apply digits12_related, H|].
  intros [a1 r1] [a2 r2] [E1 H1]; cbn [fst snd] in *; subst a2.
  eapply flat_map_Forall2;
    [apply one_related_strict; [intros c; apply sep_not_lit; reflexivity|exact H1]|].
  intros [x1 t1] [x2 t2] [_ H2]; cbn [fst snd] in *.
  eapply flat_map_Forall2; [apply digits12_related, H2|].
  intros [b1 u1] [b2 u2] [E2 H3]; cbn [fst snd] in *; subst b2.
  eapply flat_map_Forall2;
    [apply one_related_strict; [intros c; apply sep_not_lit; reflexivity|exact H3]|].
  intros [x3 t3] [x4 t4] [_ H4]; cbn [fst snd] in *.
  eapply flat_map_Forall2; [apply digits_related, H4|].
  intros [c1 v1] [c2 v2] [E3 H5]; cbn [fst snd] in *; subst c2.
  eapply flat_map_Forall2;
    [apply one_related_strict; [intros c; apply sep_not_lit; reflexivity|exact H5]|].
  intros [x5 t5] [x6 t6] [_ H6]; cbn [fst snd] in *.
  eapply flat_map_Forall2; [apply spaces_related, H6|].
  intros [x7 t7] [x8 t8] [_ H7]; cbn [fst snd] in *.
  eapply flat_map_Forall2; [apply digits_related, H7|].
  intros [d1 w1] [d2 w2] [E4 H8]; cbn [fst snd] in *; subst d2.
  eapply flat_map_Forall2; [apply one_related_sep, H8|].
  intros [x9 t9] [x10 t10] [_ H9]; cbn [fst snd] in *.
  eapply flat_map_Forall2; [apply digits_related, H9|].
  intros [e1 y1] [e2 y2] [E5 H10]; cbn [fst snd] in *; subst e2.
  eapply flat_map_Forall2; [apply one_related_sep, H10|].
  intros [x11 t11] [x12 t12] [_ H11]; cbn [fst snd] in *.
  eapply flat_map_Forall2; [apply digits_related, H11|].
  intros [f1 z1] [f2 z2] [E6 H12]; cbn [fst snd] in *; subst f2.
  constructor; [split; auto|constructor].
Qed.

Lemma FindStringSubmatch_related s1 s2 :
  sepEquiv s1 s2 ->
  tl (FindStringSubmatch s1) = tl (FindStringSubmatch s2)
  /\ length (FindStringSubmatch s1) = length (FindStringSubmatch s2).
Proof.
  intros H. induction H as [|a b s1 s2 Hab H IH].
  - split; reflexivity.
  - assert (Hc : sepEquiv (a :: s1) (b :: s2)) by (constructor; assumption).
    apply matchHere_related in Hc. cbn [FindStringSubmatch].
    destruct Hc as [|[g1 r1] [g2 r2] l1 l2 [Hg Hr] _].
    + exact IH.
    + cbn [fst snd] in *. subst g2. split; reflexivity.
Qed.

Lemma parseEmbedded_related n1 n2 :
  sepEquiv n1 n2 -> parseEmbedded n1 = parseEmbedded n2.
Proof.
  intros H. apply FindStringSubmatch_related in H. destruct H as [Ht Hl].
  unfold parseEmbedded. rewrite <- Hl.
  destruct (FindStringSubmatch n1) as [|x1 t1], (FindStringSubmatch n2) as [|x2 t2];
    try discriminate; auto.
  cbn [tl] in Ht. subst t2. reflexivity.
Qed.

Local Open Scope Z_scope.

Lemma FindStringSubmatch_groups s full g1 g2 g3 g4 g5 g6 :
  FindStringSubmatch s = [full; g1; g2; g3; g4; g5; g6] ->
  group12 g1 /\ group12 g2 /\ groupN 4 g3 /\ groupN 2 g4 /\ groupN 2 g5 /\ groupN 2 g6.
Proof.
  intros H. destruct (FindStringSubmatch_sound s) as [E|E]; [congruence|].
  destruct E as (pre & rest & h1 & h2 & h3 & ws & h4 & c1 & h5 & c2 & h6 & W & _ & F).
  rewrite F in H. inversion H; subst.
  unfold wellFormed in W. tauto.
Qed.

Lemma parseEmbedded_spec name full g1 g2 g3 g4 g5 g6 :
  FindStringSubmatch name = [full; g1; g2; g3; g4; g5; g6] ->
  parseEmbedded name =
  if validFields (digitsVal g1) (digitsVal g2) (digitsVal g3)
                 (digitsVal g4) (digitsVal g5) (digitsVal g6)
  then Some (Date (digitsVal g3) (digitsVal g1) (digitsVal g2)
                  (digitsVal g4) (digitsVal g5) (digitsVal g6) 0)
  else None.
Proof.
  intros H. pose proof (FindStringSubmatch_groups _ H) as (W1 & W2 & W3 & W4 & W5 & W6).
  unfold parseEmbedded. rewrite H. cbn [length Nat.eqb nth].
  now apply Parse_dateTimeStr.
Qed.

Lemma parseEmbedded_nomatch name :
  FindStringSubmatch name = [] -> parseEmbedded name = None.
Proof. intros H. unfold parseEmbedded. now rewrite H. Qed.



(** C6.  When the base name has no match of the pattern, or the fields of
    its leftmost match do not parse, extraction returns the modification
    time [os.Stat] reports, and the zero time when [os.Stat] fails. *)
Theorem extractDate_fallback Stat path :
  (FindStringSubmatch (filepath.Base path) = []
   \/ exists full g1 g2 g3 g4 g5 g6,
        FindStringSubmatch (filepath.Base path) = [full; g1; g2; g3; g4; g5; g6]
        /\ validFields (digitsVal g1) (digitsVal g2) (digitsVal g3)
                       (digitsVal g4) (digitsVal g5) (digitsVal g6) = false) ->
  extractDateFromPath Stat path
  = match Stat path with
    | Some modTime => modTime
    | None => time.zero
    end.
Proof.
  intros [H|(full & g1 & g2 & g3 & g4 & g5 & g6 & H & V)];
    unfold extractDateFromPath; cbv zeta.
  - now rewrite (parseEmbedded_nomatch _ H).
  - now rewrite (parseEmbedded_spec _ H), V.
Qed.

Lemma daysBefore_nonneg mo : 1 <= mo <= 12 -> 0 <= nth (Z.to_nat (mo - 1)) daysBefore 0.
Proof.
  intros H.
  assert (C : mo = 1 \/ mo = 2 \/ mo = 3 \/ mo = 4 \/ mo = 5 \/ mo = 6 \/ mo = 7
              \/ mo = 8 \/ mo = 9 \/ mo = 10 \/ mo = 11 \/ mo = 12) by lia.
  repeat (destruct C as [->|C]; [simpl; lia|]). subst. simpl. lia.
Qed.

Lemma Date_nonneg y mo d h mi s :
  validFields mo d y h mi s = true -> 0 <= h -> 0 <= mi -> 0 <= s -> 1 <= y ->
  0 <= sec (Date y mo d h mi s 0) /\ nsec (Date y mo d h mi s 0) = 0.
Proof.
  unfold validFields. intros V Hh Hmi Hs Hy.
  repeat (apply andb_prop in V; destruct V as [V ?]).
  repeat match goal with
         | H : (_ <=? _) = true |- _ => apply Z.leb_le in H
         | H : (_ <? _) = true |- _ => apply Z.ltb_lt in H
         end.
  rewrite Date_valid by lia. cbn [sec nsec]. split; [|reflexivity].
  pose proof (daysSince_nonneg Hy). pose proof (@daysBefore_nonneg mo ltac:(lia)).
  destruct (isLeap y && (3 <=? mo)); nia.
Qed.

(** C10, as amended.  The key of a file with neither a parsed time nor a
    modification time is the zero time; it is not after a time parsed
    from a name whose year is at least 1, and the comparison of [main]
    never puts such a file before it. *)
Theorem zero_not_after_parsed :
  forall os real unknown full g1 g2 g3 g4 g5 g6,
    FindStringSubmatch (filepath.Base real) = [full; g1; g2; g3; g4; g5; g6] ->
    validFields (digitsVal g1) (digitsVal g2) (digitsVal g3)
                (digitsVal g4) (digitsVal g5) (digitsVal g6) = true ->
    1 <= digitsVal g3 ->
    parseEmbedded (filepath.Base unknown) = None ->
    Stat os unknown = None ->
    extractDateFromPath (Stat os) unknown = time.zero
    /\ After time.zero (extractDateFromPath (Stat os) real) = false
    /\ less os real unknown = false.
Proof.
  intros os real unknown full g1 g2 g3 g4 g5 g6 H V Hy Hu Hs.
  pose proof (FindStringSubmatch_groups _ H) as (W1 & W2 & W3 & W4 & W5 & W6).
  assert (Eu : extractDateFromPath (Stat os) unknown = time.zero).
  { unfold extractDateFromPath. cbv zeta. now rewrite Hu, Hs. }
  assert (Er : extractDateFromPath (Stat os) real
               = Date (digitsVal g3) (digitsVal g1) (digitsVal g2)
                      (digitsVal g4) (digitsVal g5) (digitsVal g6) 0).
  { unfold extractDateFromPath. cbv zeta. now rewrite (parseEmbedded_spec _ H), V. }
  destruct (@Date_nonneg (digitsVal g3) (digitsVal g1) (digitsVal g2)
              (digitsVal g4) (digitsVal g5) (digitsVal g6) V) as [Hsec Hnsec];
    try (apply digitsVal_nonneg; [apply W4 || apply W5 || apply W6]); auto.
  split; [exact Eu|]. unfold less. cbv zeta. rewrite Eu, Er.
  unfold After, Before, time.zero. cbn [sec nsec]. rewrite Hnsec.
  split.
  - destruct (Z.ltb_spec (sec (Date (digitsVal g3) (digitsVal g1) (digitsVal g2)
              (digitsVal g4) (digitsVal g5) (digitsVal g6) 0)) 0); [lia|].
    cbn [orb]. rewrite Z.ltb_irrefl. now rewrite andb_false_r.
  - destruct (Z.ltb_spec (sec (Date (digitsVal g3) (digitsVal g1) (digitsVal g2)
              (digitsVal g4) (digitsVal g5) (digitsVal g6) 0)) 0); [lia|].
    cbn [orb]. rewrite Z.ltb_irrefl. now rewrite andb_false_r.
Qed.


Lemma extractDate_fallback_witness :
  FindStringSubmatch (filepath.Base (str "videos/G5 Flex clip.mp4")) = []
  /\ extractDateFromPath (fun _ => Some (mkTime 63900000000 0))
       (str "videos/G5 Flex clip.mp4")
     = mkTime 63900000000 0.
Proof.
  split; [reflexivity|].
  apply (@extractDate_fallback (fun _ => Some (mkTime 63900000000 0))
           (str "videos/G5 Flex clip.mp4")).
  left. reflexivity.
Defined.

Lemma zero_not_after_parsed_witness :
  extractDateFromPath (Stat (demoOS None)) (str "videos/G5 Flex clip.mp4") = time.zero
  /\ After time.zero
       (extractDateFromPath (Stat (demoOS None))
          (str "videos/G5 Flex 1-1-2026, 03.00.00 GMT+1.mp4")) = false
  /\ less (demoOS None) (str "videos/G5 Flex 1-1-2026, 03.00.00 GMT+1.mp4")
          (str "videos/G5 Flex clip.mp4") = false.
Proof.
  apply (@zero_not_after_parsed (demoOS None)
           (str "videos/G5 Flex 1-1-2026, 03.00.00 GMT+1.mp4")
           (str "videos/G5 Flex clip.mp4")
           (str "1-1-2026, 03.00.00") (str "1") (str "1") (str "2026")
           (str "03") (str "00") (str "00")).
  - reflexivity.
  - reflexivity.
  - vm_compute. discriminate.
  - reflexivity.
  - reflexivity.
Defined.

(** C10 as stated fails on the year 0000, which has four digits: the
    name parses to an instant of the year 0, before the zero time, and
    the comparison of [main] puts that file before one without a key. *)
Lemma zero_after_year_zero :
  FindStringSubmatch (filepath.Base (str "videos/G5 1-1-0000, 00.00.00.mp4"))
  = [str "1-1-0000, 00.00.00"; str "1"; str "1"; str "0000";
     str "00"; str "00"; str "00"]
  /\ parseEmbedded (filepath.Base (str "videos/G5 1-1-0000, 00.00.00.mp4"))
     = Some (mkTime (-31622400) 0)
  /\ After time.zero
       (extractDateFromPath (Stat (demoOS None))
          (str "videos/G5 1-1-0000, 00.00.00.mp4")) = true
  /\ extractDateFromPath (Stat (demoOS None)) (str "videos/G5 clip.mp4") = time.zero
  /\ less (demoOS None) (str "videos/G5 1-1-0000, 00.00.00.mp4")
          (str "videos/G5 clip.mp4") = true.
Proof. vm_compute. repeat split. Qed.

End TimestampFacts.

(** ** The walk of [findVideoFiles] *)

Section WalkFacts.

Import strings.

Lemma Walk_Dir (S : Type) fn path es (st : S) :
  Walk fn path (Dir es) st =
  let '(st1, err1) := fn path (Some (mkInfo true false)) None st in
  match err1 with
  | Some e => (st1, Some e)
  | None => walkEntries fn path es st1
  end.
Proof.
  cbn [Walk]. destruct (fn path (Some (mkInfo true false)) None st) as [st1 [e|]]; auto.
  revert st1. induction es as [|[name child] es IH]; intros st1; cbn [walkEntries]; auto.
  destruct (Walk fn (filepath.Join path name) child st1) as [st' [e|]]; auto.
Qed.

Lemma node_ind2 (P : node -> Prop) :
  P Regular -> P Irregular ->
  (forall es, Forall (fun e => P (snd e)) es -> P (Dir es)) ->
  (forall e, P (Unreadable e)) -> (forall e, P (Broken e)) ->
  forall n, P n.
Proof.
  intros HR HI HD HU HB. fix IH 1. intros n.
  destruct n as [| |es|e|e]; [exact HR|exact HI| |apply HU|apply HB].
  apply HD. induction es as [|[name child] es IHes]; constructor.
  - apply IH.
  - exact IHes.
Qed.

Lemma collect_Dir path es : collect path (Dir es) = collectEntries path es.
Proof.
  cbn [collect]. unfold collectEntries.
  induction es as [|[name child] es IH]; cbn [flat_map fst snd]; auto. now rewrite IH.
Qed.

Lemma treeErrors_Dir es : treeErrors (Dir es) = errorsEntries es.
Proof.
  cbn [treeErrors]. unfold errorsEntries.
  induction es as [|[name child] es IH]; cbn [flat_map fst snd]; auto. now rewrite IH.
Qed.

Lemma fold_step_stuck os cam ps fs e :
  fold_left (step os cam) ps (fs, Some e) = (fs, Some e).
Proof. induction ps; simpl; auto. Qed.

Lemma visit_regular os cam path files :
  visit os cam path (Some (mkInfo false true)) None files = step os cam (files, None) path.
Proof.
  unfold visit, step, wanted. cbn [IsRegular negb].
  destruct (HasSuffix (ToLower path) videoExt); cbn [negb andb]; reflexivity.
Qed.

Lemma Walk_errorfree os cam : forall n path files,
  treeErrors n = [] ->
  Walk (visit os cam) path n files
  = fold_left (step os cam) (collect path n) (files, None).
Proof.
  induction n as [| |es IH|e|e] using node_ind2; intros path files He.
  - cbn [Walk collect fold_left]. apply visit_regular.
  - reflexivity.
  - rewrite Walk_Dir, collect_Dir. rewrite treeErrors_Dir in He.
    cbn [visit IsRegular negb]. revert files.
    induction es as [|[name child] es IHes]; intros files; [reflexivity|].
    unfold errorsEntries in He. cbn [flat_map snd] in He.
    apply app_eq_nil in He. destruct He as [He1 He2].
    inversion IH as [|? ? IH1 IH2]; subst. cbn [snd] in IH1.
    cbn [walkEntries]. unfold collectEntries. cbn [flat_map fst snd].
    rewrite fold_left_app. rewrite (IH1 _ files He1).
    destruct (fold_left (step os cam) (collect (filepath.Join path name) child) (files, None))
      as [st' [e|]].
    + now rewrite fold_step_stuck.
    + now apply IHes.
  - discriminate.
  - discriminate.
Qed.

Lemma fold_step_ok os cam : forall ps fs,
  (forall p, In p ps -> wanted cam p = true -> exists q, Abs os p = Ok q) ->
  exists qs, fold_left (step os cam) ps (fs, None) = (fs ++ qs, None)
             /\ Forall2 (fun p q => Abs os p = Ok q) (filter (wanted cam) ps) qs.
Proof.
  induction ps as [|p ps IH]; intros fs H.
  - exists []. rewrite app_nil_r. split; [reflexivity|constructor].
  - cbn [fold_left step filter].
    destruct (wanted cam p) eqn:W.
    + destruct (H p (or_introl eq_refl) W) as [q Hq]. rewrite Hq.
      destruct (IH (fs ++ [q])) as [qs [E F]].
      { intros p' Hp'. apply H. now right. }
      exists (q :: qs). rewrite E, <- app_assoc. split; [reflexivity|].
      constructor; assumption.
    + destruct (IH fs) as [qs [E F]].
      { intros p' Hp'. apply H. now right. }
      exists qs. split; assumption.
Qed.

Lemma fold_step_error os cam : forall ps acc fs e,
  fold_left (step os cam) ps acc = (fs, Some e) ->
  snd acc = Some e \/ exists p, In p ps /\ Abs os p = Err e.
Proof.
  induction ps as [|p ps IH]; intros acc fs e H.
  - simpl in H. subst. now left.
  - cbn [fold_left] in H. apply IH in H. destruct H as [H|[p' [Hin H]]].
    + destruct acc as [fs' [e'|]]; cbn [step snd] in *; auto.
      destruct (wanted cam p); [|discriminate].
      destruct (Abs os p) eqn:A; cbn [snd] in H; [discriminate|].
      inversion H; subst. right. exists p. split; [now left|assumption].
    + right. exists p'. split; [now right|assumption].
Qed.

Lemma visit_error os cam path info e files :
  visit os cam path info (Some e) files = (files, Some e).
Proof. reflexivity. Qed.

Lemma Walk_errors os cam : forall n path files,
  (treeErrors n <> [] -> snd (Walk (visit os cam) path n files) <> None)
  /\ (forall e, snd (Walk (visit os cam) path n files) = Some e ->
        In e (treeErrors n) \/ exists p, In p (collect path n) /\ Abs os p = Err e).
Proof.
  induction n as [| |es IH|e|e] using node_ind2; intros path files.
  - split; [intros H; now contradiction H|].
    intros e H. cbn [Walk] in H. rewrite visit_regular in H.
    right. cbn [collect].
    destruct (step os cam (files, None) path) as [fs o] eqn:E. cbn [snd] in H. subst o.
    change (step os cam (files, None) path) with (fold_left (step os cam) [path] (files, None)) in E.
    apply fold_step_error in E. destruct E as [E|E]; [discriminate|exact E].
  - split; [intros H; now contradiction H|]. intros e H. discriminate.
  - rewrite Walk_Dir, collect_Dir, treeErrors_Dir. cbn [visit IsRegular negb].
    revert files. induction es as [|[name child] es IHes]; intros files.
    + split; [intros H; now contradiction H|]. intros e H. discriminate.
    + inversion IH as [|? ? IH1 IH2]; subst. cbn [snd] in IH1.
      specialize (IHes IH2). cbn [walkEntries].
      unfold errorsEntries, collectEntries. cbn [flat_map fst snd].
      destruct (IH1 (filepath.Join path name) files) as [A B].
      destruct (Walk (visit os cam) (filepath.Join path name) child files) as [st' [e|]] eqn:W.
      * split; [intros _; discriminate|].
        intros e' H. cbn [snd] in H. inversion H; subst e'.
        destruct (B e eq_refl) as [B'|[p [Hp HA]]].
        -- left. apply in_or_app. now left.
        -- right. exists p. split; [apply in_or_app; now left|assumption].
      * destruct (IHes st') as [A' B']. split.
        -- intros H. apply A'. intros Hn.
           destruct (treeErrors child) eqn:T.
           ++ apply H. exact Hn.
           ++ apply A; [discriminate|reflexivity].
        -- intros e H. destruct (B' e H) as [B''|[p [Hp HA]]].
           ++ left. apply in_or_app. now right.
           ++ right. exists p. split; [apply in_or_app; now right|assumption].
  - split; [intros _; discriminate|].
    intros e' H. cbn [Walk] in H. rewrite visit_error in H. cbn [snd] in H.
    inversion H; subst. left. now left.
  - split; [intros _; discriminate|].
    intros e' H. cbn [Walk] in H. rewrite visit_error in H. cbn [snd] in H.
    inversion H; subst. left. now left.
Qed.

Lemma eqb_eq s t : strings.eqb s t = true <-> s = t.
Proof.
  revert t. induction s as [|c s IH]; intros [|d t]; simpl; split; try discriminate; auto.
  - intros H. apply andb_prop in H. destruct H as [H1 H2].
    apply Ascii.eqb_eq in H1. apply IH in H2. now subst.
  - intros H. inversion H; subst. rewrite Ascii.eqb_refl. simpl. now apply IH.
Qed.

Lemma HasPrefix_spec s p : HasPrefix s p = true <-> exists t, s = p ++ t.
Proof.
  revert s. induction p as [|c p IH]; intros s; simpl.
  - split; eauto.
  - destruct s as [|d s].
    + split; [discriminate|]. intros [t H]. discriminate.
    + split.
      * intros H. apply andb_prop in H. destruct H as [H1 H2].
        apply Ascii.eqb_eq in H1. apply IH in H2. destruct H2 as [t ->]. subst. eauto.
      * intros [t H]. inversion H; subst. rewrite Ascii.eqb_refl. simpl.
        apply IH. eauto.
Qed.

Lemma HasSuffix_spec s suf : HasSuffix s suf = true <-> exists x, s = x ++ suf.
Proof.
  unfold HasSuffix. split.
  - intros H. apply andb_prop in H. destruct H as [H1 H2].
    apply eqb_eq in H2. exists (firstn (length s - length suf) s).
    set (n := length s - length suf) in *. rewrite <- H2.
    symmetry. apply firstn_skipn.
  - intros [x ->]. rewrite length_app.
    replace (length x + length suf - length suf) with (length x) by lia.
    rewrite skipn_app, Nat.sub_diag, skipn_all. simpl.
    apply andb_true_intro. split.
    + apply Nat.leb_le. lia.
    + now apply eqb_eq.
Qed.

Lemma HasSuffix_rev s suf : HasSuffix s suf = HasPrefix (rev s) (rev suf).
Proof.
  apply eq_true_iff_eq. rewrite HasSuffix_spec, HasPrefix_spec. split.
  - intros [x ->]. exists (rev x). now rewrite rev_app_distr.
  - intros [t H]. exists (rev t).
    rewrite <- (rev_involutive s), H, rev_app_distr, rev_involutive. reflexivity.
Qed.

Lemma HasPrefix_barrier a c x p :
  forallb (fun d => negb (Ascii.eqb c d)) p = true ->
  HasPrefix (a ++ c :: x) p = HasPrefix a p.
Proof.
  revert a. induction p as [|d p IH]; intros a H; [reflexivity|].
  simpl in H. apply andb_prop in H. destruct H as [H1 H2].
  destruct a as [|y a]; simpl.
  - apply negb_true_iff in H1. now rewrite H1.
  - now rewrite IH.
Qed.

Lemma wfNames_Dir es :
  wfNames (Dir es) = forallb (fun e => wfName (fst e) && wfNames (snd e)) es.
Proof.
  cbn [wfNames]. induction es as [|[name child] es IH]; cbn [forallb fst snd]; auto.
  now rewrite IH.
Qed.

Lemma suffix_of_join dir name :
  HasSuffix (ToLower (filepath.Join dir name)) videoExt
  = HasSuffix (ToLower name) videoExt.
Proof.
  rewrite !HasSuffix_rev. unfold filepath.Join, ToLower.
  rewrite !map_app, !rev_app_distr. cbn [str list_ascii_of_string map rev app].
  rewrite <- app_assoc. cbn [app].
  apply HasPrefix_barrier. reflexivity.
Qed.

Lemma upToSlash_app a x :
  forallb (fun c => negb (filepath.isSlash c)) a = true ->
  filepath.upToSlash (a ++ byte 47 :: x) = a.
Proof.
  induction a as [|c a IH]; simpl; intros H; [reflexivity|].
  apply andb_prop in H. destruct H as [H1 H2].
  apply negb_true_iff in H1. rewrite H1. now rewrite IH.
Qed.

Lemma forallb_rev (A : Type) (f : A -> bool) l : forallb f (rev l) = forallb f l.
Proof.
  induction l as [|x l IH]; simpl; auto.
  rewrite forallb_app, IH. simpl. rewrite andb_true_r. apply andb_comm.
Qed.

Lemma Base_of_join dir name :
  wfName name = true -> filepath.Base (filepath.Join dir name) = name.
Proof.
  unfold wfName. intros H. apply andb_prop in H. destruct H as [Hn Hs].
  unfold filepath.Base, filepath.Join.
  destruct (dir ++ str "/" ++ name) as [|c0 t] eqn:E.
  { destruct dir; discriminate. }
  rewrite <- E. clear E c0 t.
  rewrite !rev_app_distr. cbn [str list_ascii_of_string rev app].
  rewrite <- app_assoc. cbn [app].
  assert (Hr : forallb (fun c => negb (filepath.isSlash c)) (rev name) = true)
    by now rewrite forallb_rev.
  assert (Hd : filepath.dropSlashes (rev name ++ "/"%char :: rev dir)
               = rev name ++ "/"%char :: rev dir).
  { destruct (rev name) as [|c r] eqn:R.
    - apply (f_equal (@rev ascii)) in R. rewrite rev_involutive in R. subst. discriminate.
    - simpl in Hr. apply andb_prop in Hr. destruct Hr as [Hc _].
      apply negb_true_iff in Hc. simpl. now rewrite Hc. }
  rewrite Hd. change "/"%char with (byte 47). rewrite upToSlash_app by assumption.
  rewrite rev_involutive. destruct name; [discriminate|reflexivity].
Qed.

Lemma wanted_join cam dir name :
  wfName name = true ->
  wanted cam (filepath.Join dir name) = wantedName cam name.
Proof.
  intros H. unfold wanted, wantedName. now rewrite suffix_of_join, Base_of_join.
Qed.

Lemma collect_paths : forall n path p,
  wfNames n = true -> In p (collect path n) ->
  p = path \/ exists dir name, p = filepath.Join dir name /\ wfName name = true.
Proof.
  induction n as [| |es IH|e|e] using node_ind2; intros path p W H;
    try (now destruct H); [destruct H as [<-|[]]; now left|].
  rewrite collect_Dir in H. rewrite wfNames_Dir in W.
  unfold collectEntries in H. apply in_flat_map in H.
  destruct H as [[name child] [Hin H]]. cbn [fst snd] in H.
  rewrite forallb_forall in W. specialize (W _ Hin). cbn [fst snd] in W.
  apply andb_prop in W. destruct W as [W1 W2].
  rewrite Forall_forall in IH. specialize (IH _ Hin _ _ W2 H). cbn [snd] in IH.
  right. destruct IH as [->|IH]; eauto.
Qed.

Lemma wanted_under_videos os cam p :
  wfNames (videos os) = true -> In p (collect videosDir (videos os)) ->
  wanted cam p = wantedName cam (filepath.Base p).
Proof.
  intros W H. destruct (@collect_paths (videos os) videosDir p W H) as [->|(dir & name & -> & Hn)].
  - reflexivity.
  - rewrite wanted_join by assumption. now rewrite Base_of_join.
Qed.



End WalkFacts.

(** ** The rescale factor of [runFFmpeg] *)

Section FloatFacts.

Import float64.
Local Open Scope Z_scope.

Lemma roundHalfEven_near num den :
  0 < den -> Z.abs (2 * (roundHalfEven num den * den - num)) <= den.
Proof.
  intros Hd. unfold roundHalfEven. cbv zeta.
  pose proof (Z.div_mod num den ltac:(lia)) as E.
  pose proof (Z.mod_pos_bound num den Hd) as B.
  set (q := num / den) in *. set (r := num mod den) in *.
  destruct ((den <? 2 * r) || ((2 * r =? den) && Z.odd q)) eqn:C.
  - assert (den <= 2 * r).
    { apply orb_prop in C. destruct C as [C|C].
      - apply Z.ltb_lt in C. lia.
      - apply andb_prop in C. destruct C as [C _]. apply Z.eqb_eq in C. lia. }
    nia.
  - apply orb_false_elim in C. destruct C as [C _]. apply Z.ltb_ge in C. nia.
Qed.

Lemma roundHalfEven_nonneg num den : 0 <= num -> 0 < den -> 0 <= roundHalfEven num den.
Proof.
  intros Hn Hd. unfold roundHalfEven. cbv zeta.
  pose proof (Z.div_pos num den Hn Hd).
  destruct ((den <? 2 * (num mod den)) || _); lia.
Qed.

Lemma scaled_nonneg m e p : 0 <= scaled m e p.
Proof.
  unfold scaled. destruct (0 <=? e) eqn:E.
  - apply Z.leb_le in E. 
    assert (0 < 2 ^ e) by (apply Z.pow_pos_nonneg; lia).
    assert (0 < 10 ^ Z.of_nat p) by (apply Z.pow_pos_nonneg; lia). nia.
  - apply Z.leb_gt in E. apply roundHalfEven_nonneg.
    + assert (0 < 10 ^ Z.of_nat p) by (apply Z.pow_pos_nonneg; lia). nia.
    + apply Z.pow_pos_nonneg; lia.
Qed.

Lemma scaled_near m e p :
  (0 <= e -> scaled m e p = Zpos m * 2 ^ e * 10 ^ Z.of_nat p)
  /\ (e < 0 ->
      Z.abs (2 * (scaled m e p * 2 ^ (- e) - Zpos m * 10 ^ Z.of_nat p)) <= 2 ^ (- e)).
Proof.
  unfold scaled. split; intros H.
  - apply Z.leb_le in H. now rewrite H.
  - apply Z.leb_gt in H. rewrite H. apply roundHalfEven_near.
    apply Z.pow_pos_nonneg; lia.
Qed.

Lemma digitChar_digit d : 0 <= d <= 9 -> isDigitByte (digitChar d) = true /\ time.digitVal (digitChar d) = d.
Proof.
  intros H. unfold isDigitByte, digitChar, time.digitVal.
  rewrite nat_ascii_embedding by lia. split.
  - apply andb_true_intro. split; apply Nat.leb_le; lia.
  - lia.
Qed.

Lemma digitsVal_app a b :
  time.digitsVal (a ++ b) = time.digitsVal a * 10 ^ Z.of_nat (length b) + time.digitsVal b.
Proof.
  unfold time.digitsVal. rewrite fold_left_app.
  generalize (fold_left (fun acc c => acc * 10 + time.digitVal c) a 0). intros x.
  revert x. induction b as [|c b IH]; intros x.
  - simpl. lia.
  - cbn [fold_left length]. rewrite IH, (IH (0 * 10 + time.digitVal c)).
    rewrite Nat2Z.inj_succ, Z.pow_succ_r by lia. ring.
Qed.

Lemma digitsOf_spec fuel : forall n acc,
  (1 <= fuel)%nat -> 0 <= n < 10 ^ Z.of_nat fuel ->
  exists ds, digitsOf fuel n acc = ds ++ acc
             /\ time.allDigits ds = true
             /\ time.digitsVal ds = n
             /\ (forall p, (1 <= p)%nat -> n < 10 ^ Z.of_nat p -> (length ds <= p)%nat)
             /\ (1 <= length ds)%nat.
Proof.
  induction fuel as [|fuel IH]; intros n acc Hf H.
  - lia.
  - cbn [digitsOf].
    pose proof (Z.mod_pos_bound n 10 ltac:(lia)) as B.
    pose proof (Z.div_mod n 10 ltac:(lia)) as E.
    destruct (@digitChar_digit (n mod 10) ltac:(lia)) as [D V].
    destruct (n <? 10) eqn:C.
    + apply Z.ltb_lt in C. exists [digitChar (n mod 10)].
      rewrite Z.mod_small in * by lia.
      split; [reflexivity|].
      split; [unfold time.allDigits; cbn [forallb]; now rewrite D|].
      split; [unfold time.digitsVal; cbn [fold_left]; rewrite V; lia|].
      split; [intros p Hp _; cbn [length]; lia|cbn [length]; lia].
    + apply Z.ltb_ge in C.
      rewrite Nat2Z.inj_succ, Z.pow_succ_r in H by lia.
      destruct (IH (n / 10) (digitChar (n mod 10) :: acc)) as (ds & E1 & E2 & E3 & E4 & E5).
      { destruct fuel; [change (10 ^ Z.of_nat 0) with 1 in H; lia|lia]. }
      { split; [apply Z.div_pos; lia|]. apply Z.div_lt_upper_bound; lia. }
      exists (ds ++ [digitChar (n mod 10)]).
      split; [rewrite E1, <- app_assoc; reflexivity|].
      split; [unfold time.allDigits in *; rewrite forallb_app, E2; cbn [forallb andb]; now rewrite D|].
      split.
      { rewrite digitsVal_app, E3. unfold time.digitsVal at 1.
        cbn [fold_left length]. rewrite V. change (10 ^ Z.of_nat 1) with 10. lia. }
      split.
      { intros p Hp Hn. rewrite length_app. cbn [length].
        destruct p as [|[|p]].
        - lia.
        - exfalso. change (Z.of_nat 1) with 1 in Hn. rewrite Z.pow_1_r in Hn. lia.
        - assert (length ds <= S p)%nat; [|lia].
          apply E4; [lia|]. apply Z.div_lt_upper_bound; [lia|].
          rewrite Nat2Z.inj_succ, Z.pow_succ_r in Hn by lia. lia. }
      rewrite length_app. cbn [length]. lia.
Qed.

Lemma log2_fuel n : 0 <= n -> n < 10 ^ Z.of_nat (S (Z.to_nat (Z.log2 n))).
Proof.
  intros H. rewrite Nat2Z.inj_succ, Z2Nat.id by apply Z.log2_nonneg.
  destruct (Z.eq_dec n 0) as [->|Hn].
  - simpl. lia.
  - pose proof (Z.log2_spec n ltac:(lia)) as [_ L].
    eapply Z.lt_le_trans; [exact L|].
    apply Z.pow_le_mono_l. pose proof (Z.log2_nonneg n). lia.
Qed.

Lemma decimal_spec n :
  0 <= n ->
  time.allDigits (decimal n) = true
  /\ time.digitsVal (decimal n) = n
  /\ (forall p, (1 <= p)%nat -> n < 10 ^ Z.of_nat p -> (length (decimal n) <= p)%nat).
Proof.
  intros H. unfold decimal.
  destruct (@digitsOf_spec (S (Z.to_nat (Z.log2 n))) n []) as (ds & E1 & E2 & E3 & E4 & _).
  { lia. }
  { split; [assumption|now apply log2_fuel]. }
  rewrite E1, app_nil_r. tauto.
Qed.

Lemma digitsVal_zeros k x :
  time.digitsVal (repeat (byte 48) k ++ x) = time.digitsVal x.
Proof.
  rewrite digitsVal_app.
  assert (Z0 : time.digitsVal (repeat (byte 48) k) = 0).
  { induction k as [|k IH]; [reflexivity|].
    change (repeat (byte 48) (S k)) with ([byte 48] ++ repeat (byte 48) k).
    rewrite digitsVal_app, IH. reflexivity. }
  rewrite Z0. lia.
Qed.

Lemma allDigits_zeros k : time.allDigits (repeat (byte 48) k) = true.
Proof. induction k; simpl; auto. Qed.

(** The text of a fixed-point number denotes it. *)
Lemma fixedPoint_spec n p :
  0 <= n -> (1 <= p)%nat ->
  exists int frac,
    fixedPoint n p = int ++ str "." ++ frac
    /\ time.allDigits int = true /\ time.allDigits frac = true
    /\ length frac = p
    /\ time.digitsVal int * 10 ^ Z.of_nat p + time.digitsVal frac = n.
Proof.
  intros Hn Hp. unfold fixedPoint. destruct p as [|p']; [lia|].
  set (p := S p') in *.
  assert (P : 0 < 10 ^ Z.of_nat p) by (apply Z.pow_pos_nonneg; lia).
  pose proof (Z.mod_pos_bound n _ P) as B.
  pose proof (Z.div_mod n (10 ^ Z.of_nat p) ltac:(lia)) as E.
  destruct (@decimal_spec (n / 10 ^ Z.of_nat p) ltac:(apply Z.div_pos; lia))
    as (I1 & I2 & _).
  destruct (@decimal_spec (n mod 10 ^ Z.of_nat p) ltac:(lia)) as (F1 & F2 & F3).
  specialize (F3 p Hp ltac:(lia)).
  exists (decimal (n / 10 ^ Z.of_nat p)),
         (repeat (byte 48) (p - length (decimal (n mod 10 ^ Z.of_nat p)))
            ++ decimal (n mod 10 ^ Z.of_nat p)).
  split; [reflexivity|]. split; [assumption|].
  split; [unfold time.allDigits in *; rewrite forallb_app, F1;
          fold (time.allDigits (repeat (byte 48) (p - length (decimal (n mod 10 ^ Z.of_nat p)))));
          now rewrite allDigits_zeros|].
  split; [rewrite length_app, repeat_length; lia|].
  rewrite digitsVal_zeros, I2, F2. lia.
Qed.

(** C4, as amended.  The eighth argument of ffmpeg is the filter text
    around the float64 quotient [1.0 / speed] with six decimals: when the
    quotient is the finite number [m * 2^e], the digits denote the
    multiple [N] of [10^-6] nearest to it (exactly it for [e >= 0], at
    most half of [10^-6] away otherwise). *)
Theorem setpts_rescale_rounded inputs out gpu speed :
  nth 7 (ffmpegArgs inputs out gpu speed) []
  = str "[0:v]setpts=" ++ format 6 (div (ofZ 1 0) speed) ++ str "*PTS[v]"
  /\ forall sg m e,
       div (ofZ 1 0) speed = S754_finite sg m e ->
       exists N int frac,
         format 6 (div (ofZ 1 0) speed)
         = (if sg then str "-" else []) ++ int ++ str "." ++ frac
         /\ time.allDigits int = true /\ time.allDigits frac = true
         /\ length frac = 6%nat
         /\ time.digitsVal int * 10 ^ 6 + time.digitsVal frac = N
         /\ (0 <= e -> N = Zpos m * 2 ^ e * 10 ^ 6)
         /\ (e < 0 -> Z.abs (2 * (N * 2 ^ (- e) - Zpos m * 10 ^ 6)) <= 2 ^ (- e)).
Proof.
  split.
  - destruct gpu; reflexivity.
  - intros sg m e E. rewrite E. cbn [format].
    destruct (@fixedPoint_spec (scaled m e 6) 6 (scaled_nonneg m e 6) ltac:(lia))
      as (int & frac & F & D1 & D2 & L & V).
    exists (scaled m e 6), int, frac. rewrite F.
    destruct (scaled_near m e 6) as [S1 S2].
    repeat split; auto.
Qed.

Lemma setpts_rescale_rounded_witness :
  div (ofZ 1 0) (ofZ 10 0) = S754_finite false 7205759403792794 (-56)
  /\ exists N int frac,
       format 6 (div (ofZ 1 0) (ofZ 10 0))
       = (if false then str "-" else []) ++ int ++ str "." ++ frac
       /\ time.allDigits int = true /\ time.allDigits frac = true
       /\ length frac = 6%nat
       /\ time.digitsVal int * 10 ^ 6 + time.digitsVal frac = N
       /\ (0 <= -56 -> N = 7205759403792794 * 2 ^ (-56) * 10 ^ 6)
       /\ (-56 < 0 -> Z.abs (2 * (N * 2 ^ (- -56) - 7205759403792794 * 10 ^ 6)) <= 2 ^ (- -56)).
Proof.
  split; [reflexivity|].
  apply (proj2 (setpts_rescale_rounded [] [] true (ofZ 10 0))
           false 7205759403792794%positive (-56)).
  reflexivity.
Defined.

(** C4 as stated fails at speed 3, which is within the bounds: the
    factor in the argument is 0.333333, and three times 333333 is not a
    million. *)
Lemma setpts_speed_three :
  lt (ofZ 3 0) minSpeedFactor = false
  /\ lt maxSpeedFactor (ofZ 3 0) = false
  /\ nth 7 (ffmpegArgs inputsFile (str "out.mp4") true (ofZ 3 0)) []
     = str "[0:v]setpts=0.333333*PTS[v]"
  /\ 333333 * 3 <> 1000000.
Proof. repeat split; try reflexivity. discriminate. Qed.

(** Speed 10 gives the factor 0.1. *)
Lemma setpts_speed_ten :
  nth 7 (ffmpegArgs inputsFile (str "out.mp4") true (ofZ 10 0)) []
  = str "[0:v]setpts=0.100000*PTS[v]".
Proof. reflexivity. Qed.

End FloatFacts.

(** ** Runs of [main] *)

Section Runs.
Variable sort_Slice : (gostring -> gostring -> bool) -> list gostring -> list gostring.
Variable os : OS.

Lemma writeLines_ok name : forall files i w,
  (forall k, writeErr os k = None) ->
  writeLines os name i files w
  = (Done None,
     mkWorld (trace w ++ map (lineEvent name) files) (present w) (defers w)).
Proof.
  induction files as [|f files IH]; intros i w H.
  - cbn [writeLines map ret]. rewrite app_nil_r. now destruct w.
  - cbn [writeLines]. rewrite H. unfold bind at 1. unfold emit at 1.
    rewrite IH by assumption. cbn [trace present defers map].
    rewrite <- app_assoc. reflexivity.
Qed.

Lemma createInputsFile_ok files name w :
  createErr os = None -> (forall k, writeErr os k = None) ->
  createInputsFile os files name w
  = (Done None,
     mkWorld (trace w ++ EvCreate name true :: map (lineEvent name) files
                ++ [EvClose name])
             (name :: present w) (defers w)).
Proof.
  intros Hc Hw. unfold createInputsFile, call. rewrite Hc.
  unfold bind, emit, addFile, defer. cbn [trace present defers].
  rewrite writeLines_ok by assumption. cbn [trace present defers runAll runDeferred].
  unfold bind, emit, ret. cbn [trace present defers].
  repeat rewrite <- app_assoc. reflexivity.
Qed.

Lemma createInputsFile_fails files name w e :
  createErr os = Some e ->
  createInputsFile os files name w
  = (Done (Some e),
     mkWorld (trace w ++ [EvCreate name false]) (present w) (defers w)).
Proof.
  intros Hc. unfold createInputsFile, call. rewrite Hc.
  unfold bind, emit, ret. cbn [trace present defers runAll]. reflexivity.
Qed.

Lemma runFFmpeg_eq flags w :
  runFFmpeg os (ffmpegPath flags) inputsFile (outputFileOf flags)
            (useGPU flags) (speed flags) w
  = (Done (runErr os (ffmpegPath flags) (argsOf flags)),
     mkWorld (trace w ++ [EvStdout (runningLine flags);
                          EvExec (ffmpegPath flags) (argsOf flags)])
             (present w) (defers w)).
Proof.
  unfold runFFmpeg, call, runningLine, argsOf.
  destruct (useGPU flags); unfold bind, Printf, emit, ret;
    cbn [trace present defers runAll]; unfold ret;
    rewrite <- app_assoc; reflexivity.
Qed.

Lemma run_launch_fails flags files e :
  accepted flags ->
  findVideoFiles os (cameraName flags) = (files, None) ->
  files <> [] ->
  createErr os = None -> (forall k, writeErr os k = None) ->
  runErr os (ffmpegPath flags) (argsOf flags) = Some e ->
  run sort_Slice os flags
  = (1%Z,
     mkWorld (upToLaunch sort_Slice os flags files
                ++ [EvStderr (str "Error: running ffmpeg: " ++ e ++ newline)])
             [inputsFile] [DeferRemove inputsFile]).
Proof.
  intros (Hc & Hlo & Hhi) Hf Hn Hcr Hw Hr.
  unfold run, main, call. cbn [trace present defers initial].
  rewrite Hc, Hlo, Hhi, Hf. cbn [orb when].
  destruct files as [|f files]; [congruence|].
  cbn [length Nat.eqb when].
  unfold bind at 1. unfold ret at 1.
  unfold bind at 1. unfold ret at 1.
  unfold bind at 1. unfold emit at 1. cbn [trace present defers].
  unfold bind at 1. unfold ret at 1.
  unfold bind at 1. unfold ret at 1.
  unfold bind at 1. unfold Printf at 1. unfold emit at 1. cbn [trace present defers].
  unfold bind at 1. rewrite createInputsFile_ok by assumption. cbn [trace present defers].
  cbn [when]. unfold bind at 1. unfold ret at 1.
  unfold bind at 1. unfold defer at 1. cbn [trace present defers].
  unfold bind at 1. unfold Printf at 1. unfold emit at 1. cbn [trace present defers].
  unfold bind at 1. fold (outputFileOf flags). rewrite runFFmpeg_eq, Hr.
  cbn [trace present defers when].
  unfold bind at 1. unfold exitWithError, bind, Fprintf_Stderr, emit, os_Exit.
  cbn [trace present defers].
  unfold upToLaunch. cbv zeta. f_equal. f_equal.
  cbn [app]. repeat (rewrite <- ?app_assoc; cbn [app]). reflexivity.
Qed.

Lemma run_success flags files :
  accepted flags ->
  findVideoFiles os (cameraName flags) = (files, None) ->
  files <> [] ->
  createErr os = None -> (forall k, writeErr os k = None) ->
  runErr os (ffmpegPath flags) (argsOf flags) = None ->
  removeErr os = None ->
  run sort_Slice os flags
  = (0%Z,
     mkWorld (upToLaunch sort_Slice os flags files
                ++ [EvStdout (str "Successfully created: " ++ outputFileOf flags ++ newline);
                    EvRemove inputsFile true])
             [] []).
Proof.
  intros (Hc & Hlo & Hhi) Hf Hn Hcr Hw Hr Hrm.
  unfold run, main, call. cbn [trace present defers initial].
  rewrite Hc, Hlo, Hhi, Hf. cbn [orb when].
  destruct files as [|f files]; [congruence|].
  cbn [length Nat.eqb when].
  unfold bind at 1. unfold ret at 1.
  unfold bind at 1. unfold ret at 1.
  unfold bind at 1. unfold emit at 1. cbn [trace present defers].
  unfold bind at 1. unfold ret at 1.
  unfold bind at 1. unfold ret at 1.
  unfold bind at 1. unfold Printf at 1. unfold emit at 1. cbn [trace present defers].
  unfold bind at 1. rewrite createInputsFile_ok by assumption. cbn [trace present defers].
  cbn [when]. unfold bind at 1. unfold ret at 1.
  unfold bind at 1. unfold defer at 1. cbn [trace present defers].
  unfold bind at 1. unfold Printf at 1. unfold emit at 1. cbn [trace present defers].
  unfold bind at 1. fold (outputFileOf flags). rewrite runFFmpeg_eq, Hr.
  cbn [trace present defers when].
  unfold bind at 1. unfold ret at 1. unfold Printf, emit. cbn [trace present defers].
  cbn [runAll runDeferred]. rewrite Hrm.
  unfold bind, emit, delFile, ret. cbn [trace present defers].
  unfold upToLaunch. cbv zeta.
  replace (filter (fun f0 => negb (strings.eqb f0 inputsFile)) [inputsFile]) with (@nil gostring)
    by reflexivity.
  f_equal. f_equal.
  cbn [app]. repeat (rewrite <- ?app_assoc; cbn [app]). reflexivity.
Qed.

Lemma run_rejects_speed flags :
  strings.eqb (cameraName flags) [] = false ->
  float64.lt (speed flags) minSpeedFactor || float64.lt maxSpeedFactor (speed flags) = true ->
  run sort_Slice os flags
  = (1%Z,
     mkWorld [EvStderr (str "Error: speed factor must be between 0.1 and 1000.0" ++ newline)]
             [] []).
Proof.
  intros Hc Hs. unfold run, main, call. cbn [trace present defers initial].
  rewrite Hc, Hs. cbn [when].
  unfold bind at 1. unfold ret at 1. unfold bind at 1.
  unfold exitWithError, bind, Fprintf_Stderr, emit, os_Exit. cbn [trace present defers].
  reflexivity.
Qed.

Lemma run_rejects_camera flags :
  cameraName flags = [] ->
  run sort_Slice os flags
  = (1%Z,
     mkWorld [EvStderr (str "Error: -camera flag is required" ++ newline ++ newline); EvUsage]
             [] []).
Proof.
  intros Hc. unfold run, main, call. cbn [trace present defers initial].
  rewrite Hc. cbn [strings.eqb when].
  unfold bind, Fprintf_Stderr, emit, os_Exit. cbn [trace present defers].
  reflexivity.
Qed.

Lemma run_write_fails flags files e :
  accepted flags ->
  findVideoFiles os (cameraName flags) = (files, None) ->
  files <> [] ->
  sort_Slice (less os) files <> [] ->
  createErr os = None -> writeErr os 0 = Some e ->
  fst (run sort_Slice os flags) = 1%Z
  /\ present (snd (run sort_Slice os flags)) = [inputsFile]
  /\ forall ok, ~ In (EvRemove inputsFile ok) (trace (snd (run sort_Slice os flags))).
Proof.
  intros (Hc & Hlo & Hhi) Hf Hn Hs Hcr Hw.
  unfold run, main, call. cbn [trace present defers initial].
  rewrite Hc, Hlo, Hhi, Hf. cbn [orb when].
  destruct files as [|f files]; [congruence|].
  cbn [length Nat.eqb when].
  unfold bind at 1. unfold ret at 1.
  unfold bind at 1. unfold ret at 1.
  unfold bind at 1. unfold emit at 1. cbn [trace present defers].
  unfold bind at 1. unfold ret at 1.
  unfold bind at 1. unfold ret at 1.
  unfold bind at 1. unfold Printf at 1. unfold emit at 1. cbn [trace present defers].
  unfold bind at 1. unfold createInputsFile, call. rewrite Hcr.
  unfold bind at 1. unfold emit at 1. cbn [trace present defers].
  unfold bind at 1. unfold addFile at 1. cbn [trace present defers].
  unfold bind at 1. unfold defer at 1. cbn [trace present defers].
  destruct (sort_Slice (less os) (f :: files)) as [|x sorted]; [congruence|].
  cbn [writeLines]. rewrite Hw.
  unfold bind at 1. unfold emit at 1. cbn [trace present defers].
  unfold ret at 1. cbn [trace present defers runAll runDeferred].
  unfold bind at 1. unfold emit at 1. cbn [trace present defers].
  unfold ret at 1. cbn [trace present defers when].
  unfold bind at 1. unfold exitWithError, bind, Fprintf_Stderr, emit, os_Exit.
  cbn [trace present defers fst snd app].
  split; [reflexivity|]. split; [reflexivity|].
  intros ok H. repeat (destruct H as [H|H]; [discriminate|]). exact H.
Qed.
End Runs.

(** ** Sequencing *)

Section Insertion.
Variable A : Type.
Variable less : A -> A -> bool.
Variable pass : A -> A -> bool.

Lemma insertBack_perm x racc : Permutation (x :: racc) (insertBack pass x racc).
Proof.
  induction racc as [|y r IH]; simpl; auto.
  destruct (pass x y); auto.
  eapply perm_trans; [apply perm_swap|]. now constructor.
Qed.

Lemma insertionSortBy_perm l : Permutation l (insertionSortBy pass l).
Proof.
  unfold insertionSortBy. rewrite <- Permutation_rev.
  assert (G : forall racc, Permutation (rev l ++ racc)
                             (fold_left (fun racc x => insertBack pass x racc) l racc)).
  { induction l as [|x l IH]; intros racc; simpl; auto.
    eapply perm_trans; [|apply IH]. rewrite <- app_assoc. simpl.
    apply Permutation_app_head. apply insertBack_perm. }
  specialize (G []). rewrite app_nil_r in G.
  eapply perm_trans; [apply Permutation_rev|exact G].
Qed.

Hypothesis SW : strictWeak less.
Hypothesis pass_true : forall x y, pass x y = true -> less y x = false.
Hypothesis pass_false : forall x y, pass x y = false -> less x y = false.

(** The part already sorted, last element first: no element is less
    than one behind it. *)
Let descending (racc : list A) : Prop :=
  StronglySorted (fun a b => less a b = false) racc.

Lemma insertBack_descending x racc :
  descending racc -> descending (insertBack pass x racc).
Proof.
  destruct SW as (Irr & Tr & Co).
  unfold descending. induction racc as [|y r IH]; intros H; simpl.
  - constructor; constructor.
  - inversion H as [|? ? Hr Hy]; subst.
    destruct (pass x y) eqn:P.
    + constructor; [now apply IH|].
      rewrite Forall_forall in *. intros b Hb.
      apply Permutation_in with (l' := x :: r) in Hb;
        [|apply Permutation_sym, insertBack_perm].
      destruct Hb as [<-|Hb]; [now apply pass_true|now apply Hy].
    + constructor; [assumption|].
      apply pass_false in P.
      constructor; [assumption|].
      rewrite Forall_forall in *. intros b Hb.
      destruct (less x b) eqn:E; auto.
      destruct (Co _ y _ E) as [C|C]; [congruence|].
      specialize (Hy _ Hb). congruence.
Qed.

Lemma StronglySorted_snoc (R : A -> A -> Prop) l a :
  StronglySorted R l -> Forall (fun b => R b a) l -> StronglySorted R (l ++ [a]).
Proof.
  induction 1 as [|b l Hl IH Hb]; intros F; simpl.
  - constructor; constructor.
  - inversion F; subst. constructor; [now apply IH|].
    apply Forall_app. split; [assumption|]. now constructor.
Qed.

Lemma StronglySorted_rev (R : A -> A -> Prop) l :
  StronglySorted R l -> StronglySorted (fun a b => R b a) (rev l).
Proof.
  induction 1 as [|a l Hl IH Ha]; simpl; [constructor|].
  apply StronglySorted_snoc; [assumption|].
  apply Forall_rev. exact Ha.
Qed.

Lemma insertionSortBy_ordered l : ordered less (insertionSortBy pass l).
Proof.
  unfold insertionSortBy, ordered.
  apply StronglySorted_rev with (R := fun a b => less a b = false).
  assert (G : forall racc, descending racc ->
                descending (fold_left (fun racc x => insertBack pass x racc) l racc)).
  { induction l as [|x l' IH]; intros racc H; simpl; auto.
    apply IH. now apply insertBack_descending. }
  apply G. constructor.
Qed.

End Insertion.

Lemma strictWeak_asym (A : Type) (less : A -> A -> bool) a b :
  strictWeak less -> less a b = true -> less b a = false.
Proof.
  intros (Irr & Tr & _) H. destruct (less b a) eqn:E; auto.
  rewrite <- (Irr a). symmetry. eapply Tr; eauto.
Qed.

Lemma insertionSort_contract : SliceContract insertionSort.
Proof.
  split; intros less l.
  - apply insertionSortBy_perm.
  - intros SW. apply insertionSortBy_ordered; auto.
    intros x y H. now apply strictWeak_asym.
Qed.

Lemma contrarySort_contract : SliceContract contrarySort.
Proof.
  split; intros less l.
  - apply insertionSortBy_perm.
  - intros SW. apply insertionSortBy_ordered; auto.
    + intros x y H. now apply negb_true_iff in H.
    + intros x y H. apply negb_false_iff in H. now apply strictWeak_asym.
Qed.

Section KeyOrder.

Import time.
Local Open Scope Z_scope.

Lemma Before_false t u : Before u t = false <-> notLater t u.
Proof.
  unfold Before, notLater. split.
  - intros H. apply orb_false_elim in H. destruct H as [H1 H2].
    apply Z.ltb_ge in H1. apply andb_false_iff in H2.
    destruct H2 as [H2|H2]; [apply Z.eqb_neq in H2|apply Z.ltb_ge in H2]; lia.
  - intros H. apply orb_false_intro.
    + apply Z.ltb_ge. lia.
    + apply andb_false_iff.
      destruct (Z.eq_dec (sec u) (sec t)) as [E|E].
      * right. apply Z.ltb_ge. lia.
      * left. now apply Z.eqb_neq.
Qed.

Lemma Before_true t u :
  Before t u = true <-> sec t < sec u \/ (sec t = sec u /\ nsec t < nsec u).
Proof.
  unfold Before. rewrite orb_true_iff, andb_true_iff, Z.ltb_lt, Z.eqb_eq, Z.ltb_lt.
  tauto.
Qed.

Lemma less_strictWeak os : strictWeak (less os).
Proof.
  unfold less. cbv zeta. repeat split.
  - intros a. apply Before_false. unfold notLater. lia.
  - intros a b c H1 H2. rewrite Before_true in *. lia.
  - intros a b c H. rewrite !Before_true in *. lia.
Qed.




End KeyOrder.

Section RunClaims.

Local Open Scope Z_scope.

Lemma not_in_lines name files e :
  (forall f, e <> lineEvent name f) -> ~ In e (map (lineEvent name) files).
Proof.
  intros H Hin. apply in_map_iff in Hin. destruct Hin as [f [E _]].
  now apply (H f).
Qed.

(** C1, where the code departs from it.  In a run that created the
    manifest and in which ffmpeg fails, [exitWithError] ends the process
    with status 1 through [os.Exit]: the deferred [os.Remove] does not
    run, no removal is in the trace and the manifest is still there. *)
Theorem manifest_left_when_ffmpeg_fails sort os flags files e :
  accepted flags ->
  findVideoFiles os (cameraName flags) = (files, None) ->
  files <> [] ->
  createErr os = None -> (forall k, writeErr os k = None) ->
  runErr os (ffmpegPath flags) (argsOf flags) = Some e ->
  fst (run sort os flags) = 1%Z
  /\ In (EvCreate inputsFile true) (trace (snd (run sort os flags)))
  /\ present (snd (run sort os flags)) = [inputsFile]
  /\ forall ok, ~ In (EvRemove inputsFile ok) (trace (snd (run sort os flags))).
Proof.
  intros Ha Hf Hn Hc Hw Hr.
  rewrite (@run_launch_fails sort os flags files e) by assumption.
  cbn [fst snd trace present]. split; [reflexivity|]. split; [|split; [reflexivity|]].
  - unfold upToLaunch. cbv zeta. cbn [app]. right. right. now left.
  - intros ok H. unfold upToLaunch in H. cbv zeta in H.
    apply in_app_or in H. destruct H as [H|H];
      [apply in_app_or in H; destruct H as [H|H];
       [|apply in_app_or in H; destruct H as [H|H]]|].
    + cbn [In] in H. intuition discriminate.
    + revert H. apply not_in_lines. intros f. discriminate.
    + cbn [In] in H. intuition discriminate.
    + cbn [In] in H. intuition discriminate.
Qed.

Lemma manifest_left_when_ffmpeg_fails_witness :
  fst (run insertionSort (demoOS (Some (str "exit status 1"))) (demoFlags (float64.ofZ 10 0))) = 1%Z
  /\ In (EvCreate inputsFile true)
        (trace (snd (run insertionSort (demoOS (Some (str "exit status 1")))
                       (demoFlags (float64.ofZ 10 0)))))
  /\ present (snd (run insertionSort (demoOS (Some (str "exit status 1")))
                     (demoFlags (float64.ofZ 10 0)))) = [inputsFile]
  /\ forall ok, ~ In (EvRemove inputsFile ok)
                     (trace (snd (run insertionSort (demoOS (Some (str "exit status 1")))
                                    (demoFlags (float64.ofZ 10 0))))).
Proof.
  apply (@manifest_left_when_ffmpeg_fails insertionSort
           (demoOS (Some (str "exit status 1"))) (demoFlags (float64.ofZ 10 0))
           [str "/work/videos/G5 Flex 1-1-2026, 03.00.00 GMT+1.mp4";
            str "/work/videos/G5 Flex 12-30-2025, 21.00.00 GMT+1.mp4"]
           (str "exit status 1")).
  - repeat split.
  - reflexivity.
  - discriminate.
  - reflexivity.
  - reflexivity.
  - reflexivity.
Defined.

(** When ffmpeg succeeds, [main] returns and the deferred call removes
    the manifest. *)
Theorem manifest_removed_on_success sort os flags files :
  accepted flags ->
  findVideoFiles os (cameraName flags) = (files, None) ->
  files <> [] ->
  createErr os = None -> (forall k, writeErr os k = None) ->
  runErr os (ffmpegPath flags) (argsOf flags) = None ->
  removeErr os = None ->
  fst (run sort os flags) = 0%Z
  /\ In (EvRemove inputsFile true) (trace (snd (run sort os flags)))
  /\ present (snd (run sort os flags)) = [].
Proof.
  intros Ha Hf Hn Hc Hw Hr Hm.
  rewrite (@run_success sort os flags files) by assumption.
  cbn [fst snd trace present]. split; [reflexivity|]. split; [|reflexivity].
  apply in_or_app. right. right. now left.
Qed.

(** A speed that compares below 0.1 or above 1000.0 ends the run with
    status 1 and a message on the error stream, before any other effect. *)
Theorem speed_out_of_range_rejected sort os flags :
  float64.lt (speed flags) minSpeedFactor = true
  \/ float64.lt maxSpeedFactor (speed flags) = true ->
  fst (run sort os flags) = 1%Z
  /\ (exists message, trace (snd (run sort os flags)) = EvStderr message :: 
        match cameraName flags with [] => [EvUsage] | _ => [] end)
  /\ present (snd (run sort os flags)) = [].
Proof.
  intros H. destruct (cameraName flags) as [|c cam] eqn:E.
  - rewrite run_rejects_camera by assumption. cbn [fst snd trace present]. eauto.
  - rewrite run_rejects_speed.
    + cbn [fst snd trace present]. eauto.
    + now rewrite E.
    + destruct H as [-> | ->]; auto using orb_true_r.
Qed.

(** The two bounds pass the check; 0.05 does not. *)
Lemma speed_bounds_accepted :
  float64.lt minSpeedFactor minSpeedFactor = false
  /\ float64.lt maxSpeedFactor minSpeedFactor = false
  /\ float64.lt minSpeedFactor maxSpeedFactor = true
  /\ float64.lt maxSpeedFactor maxSpeedFactor = false
  /\ float64.lt (float64.ofRatio 5 100) minSpeedFactor = true.
Proof. repeat split. Qed.

(** C3, where the code departs from it.  NaN is a float64 outside the
    interval, and [flag.Float64] accepts the text NaN; both comparisons
    of the check are false on it, so the run walks the directory, writes
    the manifest and launches ffmpeg with the factor NaN. *)
Theorem speed_NaN_not_rejected sort :
  float64.lt S754_nan minSpeedFactor = false
  /\ float64.lt maxSpeedFactor S754_nan = false
  /\ fst (run sort (demoOS None) (demoFlags S754_nan)) = 0%Z
  /\ In (EvWalk videosDir) (trace (snd (run sort (demoOS None) (demoFlags S754_nan))))
  /\ In (EvCreate inputsFile true) (trace (snd (run sort (demoOS None) (demoFlags S754_nan))))
  /\ exists args,
       In (EvExec (str "ffmpeg") args)
          (trace (snd (run sort (demoOS None) (demoFlags S754_nan))))
       /\ nth 7 args [] = str "[0:v]setpts=NaN*PTS[v]".
Proof.
  split; [reflexivity|]. split; [reflexivity|].
  rewrite (@run_success sort (demoOS None) (demoFlags S754_nan)
             [str "/work/videos/G5 Flex 1-1-2026, 03.00.00 GMT+1.mp4";
              str "/work/videos/G5 Flex 12-30-2025, 21.00.00 GMT+1.mp4"]);
    try reflexivity; [|repeat split|discriminate].
  cbn [fst snd trace]. split; [reflexivity|].
  split; [apply in_or_app; left; now left|].
  split; [apply in_or_app; left; right; right; now left|].
  exists (argsOf (demoFlags S754_nan)). split; [|reflexivity].
  apply in_or_app. left. unfold upToLaunch. cbv zeta.
  apply in_or_app. right. apply in_or_app. right. cbn [In]. tauto.
Qed.

End RunClaims.
